(** * autocomplete: word-frequency index and prefix completion

    Shallow embedding of [autocomplete.go] and proofs of its properties.

    Strings are byte strings ([string], a list of [ascii]); Go's [int] is
    a 64-bit two's-complement integer, modelled as [Z] with the wrap-around
    written out where the program does arithmetic on it; slices are lists,
    indexed by [nat], and every access outside the slice is a run-time
    panic, modelled as [None].  A Go [map] has no iteration order: a
    [range] loop over it is modelled by the list of entries in the order
    this particular loop happens to visit them. *)

From Stdlib Require Import ZArith String Ascii Sorting.Sorted.
From stdpp Require Import base option list sorting gmap strings.

Local Open Scope string_scope.
Local Open Scope list_scope.
Local Open Scope Z_scope.

(** ** Go's [int] *)

Definition int_bits : Z := 64.
Definition max_int : Z := 2 ^ (int_bits - 1) - 1.
Definition min_int : Z := - 2 ^ (int_bits - 1).

(** Two's-complement wrap-around of a mathematical integer into [int]. *)
Definition wrap (z : Z) : Z :=
  (z + 2 ^ (int_bits - 1)) mod 2 ^ int_bits - 2 ^ (int_bits - 1).

Definition int_add (x y : Z) : Z := wrap (x + y).

(** ** [WordCount] *)

Record WordCount : Type := mkWordCount { Word : string; Count : Z }.

(** ** [countWords] *)

(** The body of the [range] loop: one word is counted. *)
Definition countWords_step (frequencyMap : gmap string Z) (word : string)
  : gmap string Z :=
  match frequencyMap !! word with
  | Some count => <[word := int_add count 1]> frequencyMap
  | None => <[word := 1]> frequencyMap
  end.

(** The loop, started in any state of the map. *)
Definition countWords_from (frequencyMap : gmap string Z) (words : list string)
  : gmap string Z :=
  foldl countWords_step frequencyMap words.

Definition countWords (words : list string) : gmap string Z :=
  countWords_from ∅ words.

(** ** [strings.HasPrefix]

    [len(s) >= len(prefix) && s[:len(prefix)] == prefix]. *)
Definition HasPrefix (s prefix : string) : bool :=
  (String.length prefix <=? String.length s)%nat
  && String.eqb (substring 0 (String.length prefix) s) prefix.

(** ** [firstN] *)

(** The slice expression [words[:n]]: it panics unless [0 <= n <= cap(words)].
    The capacity is at least the length and otherwise unknown; the bound
    used here is the length, which the only use below stays under. *)
Definition slice_to (words : list string) (n : Z) : option (list string) :=
  if (0 <=? n) && (n <=? Z.of_nat (length words))
  then Some (take (Z.to_nat n) words)
  else None.

Definition firstN (words : list string) (n : Z) : option (list string) :=
  if n <? Z.of_nat (length words) then slice_to words n else Some words.

(** ** [parseFile]: the tokenizer *)

(** The character class [a-zA-Z]. *)
Definition is_alpha (c : ascii) : bool :=
  let n := nat_of_ascii c in
  ((65 <=? n) && (n <=? 90) || (97 <=? n) && (n <=? 122))%nat.

(** The class [\s] of Go's regular expressions: tab, line feed, form feed,
    carriage return and space. *)
Definition is_space (c : ascii) : bool :=
  let n := nat_of_ascii c in
  ((n =? 9) || (n =? 10) || (n =? 12) || (n =? 13) || (n =? 32))%nat.

Fixpoint string_filter (keep : ascii → bool) (s : string) : string :=
  match s with
  | EmptyString => EmptyString
  | String c s' =>
      if keep c then String c (string_filter keep s') else string_filter keep s'
  end.

(** [regexp.MustCompile("[^a-zA-Z\\s]").ReplaceAllString(s, "")]: every
    match of the one-character class is replaced by nothing.  A byte of a
    multi-byte or ill-formed sequence is at least 128, so the character
    it belongs to is in the negated class and all of its bytes go. *)
Definition removeNonAlphabetic (s : string) : string :=
  string_filter (λ c, is_alpha c || is_space c) s.

Definition lower_ascii (c : ascii) : ascii :=
  let n := nat_of_ascii c in
  if ((65 <=? n) && (n <=? 90))%nat then ascii_of_nat (n + 32) else c.

Fixpoint string_map (f : ascii → ascii) (s : string) : string :=
  match s with
  | EmptyString => EmptyString
  | String c s' => String (f c) (string_map f s')
  end.

(** [strings.ToLower] on text without bytes above 127, which is what the
    filter leaves: the letters A to Z are mapped to a to z. *)
Definition ToLower (s : string) : string := string_map lower_ascii s.

(** [FindAllStringIndex(s, -1)] for the expression [\s+]: the maximal runs
    of white space, each as the pair of its first index and the index
    after its last.  [pos] is the index of the head of [s] in the whole
    text and [cur] the start of the run being read, if any. *)
Fixpoint whitespace_runs (s : string) (pos : nat) (cur : option nat)
  : list (nat * nat) :=
  match s with
  | EmptyString =>
      match cur with Some b => [(b, pos)] | None => [] end
  | String c s' =>
      if is_space c
      then whitespace_runs s' (S pos) (Some (default pos cur))
      else match cur with
           | Some b => (b, pos) :: whitespace_runs s' (S pos) None
           | None => whitespace_runs s' (S pos) None
           end
  end.

Definition FindAllStringIndex (s : string) : list (nat * nat) :=
  whitespace_runs s 0 None.

(** The loop of [Regexp.Split(s, -1)] over the matches, with its local
    variables [beg], [end] and [strings], and the statement after it. *)
Fixpoint Split_loop (s : string) (matches : list (nat * nat))
    (beg end_ : nat) (strings : list string) : list string :=
  match matches with
  | [] =>
      if (end_ =? String.length s)%nat then strings
      else (strings ++ [substring beg (String.length s - beg) s])%list
  | (m0, m1) :: rest =>
      Split_loop s rest m1 m0
        (if (m1 =? 0)%nat then strings
         else (strings ++ [substring beg (m0 - beg) s])%list)
  end.

(** [regexp.MustCompile("\\s+").Split(s, -1)]. *)
Definition Split (s : string) : list string :=
  if (String.length s =? 0)%nat then [EmptyString]
  else Split_loop s (FindAllStringIndex s) 0 0 [].

(** Lines 79 to 92 of [parseFile], on the text read from the file. *)
Definition parseText (fileAsString : string) : list string :=
  Split (ToLower (removeNonAlphabetic fileAsString)).

(** [parseFile]: [ReadFile] stands for [ioutil.ReadFile] on the file
    system of the run, [None] being a read error, on which the program
    panics. *)
Definition parseFile (ReadFile : string → option string) (path : string)
  : option (list string) :=
  parseText <$> ReadFile path.

(** [initCounts]: [Args] is [os.Args]; with fewer than two arguments the
    program exits, which is [None] here as well. *)
Definition initCounts (Args : list string) (ReadFile : string → option string)
  : option (gmap string Z) :=
  if (length Args <? 2)%nat then None
  else
    match Args !! 1%nat with
    | Some filePath => countWords <$> parseFile ReadFile filePath
    | None => None
    end.

(** ** [sort.SliceStable]

    The standard library's stable sort, as [complete] calls it: insertion
    sort on blocks of 20 elements, then rounds of in-place merging
    ([symMerge], after Kim and Kutzner) of neighbouring blocks.  The slice
    is only read through [Less] and only written through [Swap]; both
    panic on an index outside the slice.  Indices and lengths are [nat]:
    on a slice they are non-negative and below [2^63], every subtraction
    written here is of a smaller from a larger index under the calling
    conditions of the library ([a < m < b <= n]), and [int(uint(i+j) >> 1)]
    is the midpoint [(i+j)/2]. *)

Section SliceStable.
Context {A : Type}.
(** The comparison of the elements at two indices that the [less]
    closure performs. *)
Variable elem_less : A → A → bool.

Definition Less (i j : nat) (data : list A) : option bool :=
  x ← data !! i; y ← data !! j; Some (elem_less x y).

Definition Swap (i j : nat) (data : list A) : option (list A) :=
  x ← data !! i; y ← data !! j; Some (<[i := y]> (<[j := x]> data)).

(** [for j := i; j > a && data.Less(j, j-1); j-- { data.Swap(j, j-1) }] *)
Fixpoint insertionSort_inner (a j : nat) (data : list A) : option (list A) :=
  match j with
  | O => Some data
  | S j' =>
      if bool_decide (a < j)%nat then
        lt ← Less j j' data;
        if lt : bool
        then data' ← Swap j j' data; insertionSort_inner a j' data'
        else Some data
      else Some data
  end.

(** [for i := a + 1; i < b; i++ { ... }], with [k] iterations to go. *)
Fixpoint insertionSort_loop (k a i : nat) (data : list A) : option (list A) :=
  match k with
  | O => Some data
  | S k' =>
      data' ← insertionSort_inner a i data;
      insertionSort_loop k' a (S i) data'
  end.

Definition insertionSort_func (a b : nat) (data : list A) : option (list A) :=
  insertionSort_loop (b - (a + 1)) a (a + 1) data.

(** [for i := 0; i < n; i++ { data.Swap(a+i, b+i) }], with [k]
    iterations to go. *)
Fixpoint swapRange_loop (k a b i : nat) (data : list A) : option (list A) :=
  match k with
  | O => Some data
  | S k' =>
      data' ← Swap (a + i) (b + i) data;
      swapRange_loop k' a b (S i) data'
  end.

Definition swapRange_func (a b n : nat) (data : list A) : option (list A) :=
  swapRange_loop n a b 0 data.

(** The loop [for i != j { ... }] of [rotate_func] and the final
    [swapRange]; [fuel] bounds the number of iterations. *)
Fixpoint rotate_loop (fuel m i j : nat) (data : list A) : option (list A) :=
  if bool_decide (i = j) then swapRange_func (m - i) m i data
  else
    match fuel with
    | O => None
    | S fuel' =>
        if bool_decide (j < i)%nat then
          data' ← swapRange_func (m - i) m j data;
          rotate_loop fuel' m (i - j) j data'
        else
          data' ← swapRange_func (m - i) (m + j - i) i data;
          rotate_loop fuel' m i (j - i) data'
    end.

Definition rotate_func (a m b : nat) (data : list A) : option (list A) :=
  rotate_loop (b - a) m (m - a) (b - m) data.

(** The binary searches of [symMerge_func] have one shape:
    [for i < j { h := int(uint(i+j) >> 1); if test(h) { i = h + 1 } else { j = h } }],
    leaving the answer in [i]. *)
Fixpoint search (fuel : nat) (test : nat → option bool) (i j : nat)
  : option nat :=
  if bool_decide (i < j)%nat then
    match fuel with
    | O => None
    | S fuel' =>
        let h := ((i + j) / 2)%nat in
        t ← test h;
        if t : bool then search fuel' test (h + 1)%nat j
        else search fuel' test i h
    end
  else Some i.

(** [for k := a; k < i-1; k++ { data.Swap(k, k+1) }], [n] iterations to go. *)
Fixpoint shift_up (n k : nat) (data : list A) : option (list A) :=
  match n with
  | O => Some data
  | S n' => data' ← Swap k (k + 1) data; shift_up n' (S k) data'
  end.

(** [for k := m; k > i; k-- { data.Swap(k, k-1) }] *)
Fixpoint shift_down (i k : nat) (data : list A) : option (list A) :=
  match k with
  | O => Some data
  | S k' =>
      if bool_decide (i < k)%nat
      then data' ← Swap k k' data; shift_down i k' data'
      else Some data
  end.

Fixpoint symMerge_func (fuel a m b : nat) (data : list A)
  : option (list A) :=
  match fuel with
  | O => None
  | S fuel' =>
      if bool_decide (m - a = 1)%nat then
        i ← search (b - m) (λ h, Less h a data) m b;
        shift_up (i - 1 - a) a data
      else if bool_decide (b - m = 1)%nat then
        i ← search (m - a) (λ h, negb <$> Less m h data) a m;
        shift_down i m data
      else
        let mid := ((a + b) / 2)%nat in
        let n := (mid + m)%nat in
        let '(start, r) :=
          if bool_decide (mid < m)%nat then ((n - b)%nat, mid) else (a, m) in
        let p := (n - 1)%nat in
        start ← search (r - start)
                  (λ c, negb <$> Less (p - c) c data) start r;
        let end_ := (n - start)%nat in
        data ← (if bool_decide (start < m ∧ m < end_)%nat
                then rotate_func start m end_ data else Some data);
        data ← (if bool_decide (a < start ∧ start < mid)%nat
                then symMerge_func fuel' a start mid data else Some data);
        if bool_decide (mid < end_ ∧ end_ < b)%nat
        then symMerge_func fuel' mid end_ b data else Some data
  end.

(** [for b <= n { insertionSort_func(data, a, b); a = b; b += blockSize }],
    returning [a] with the slice. *)
Fixpoint stable_blocks (fuel blockSize n a b : nat) (data : list A)
  : option (nat * list A) :=
  if bool_decide (b ≤ n)%nat then
    match fuel with
    | O => None
    | S fuel' =>
        data' ← insertionSort_func a b data;
        stable_blocks fuel' blockSize n b (b + blockSize) data'
    end
  else Some (a, data).

(** [for b <= n { symMerge_func(data, a, a+blockSize, b); a = b; b += 2 * blockSize }],
    returning [a] with the slice. *)
Fixpoint stable_merge_pairs (fuel blockSize n a b : nat) (data : list A)
  : option (nat * list A) :=
  if bool_decide (b ≤ n)%nat then
    match fuel with
    | O => None
    | S fuel' =>
        data' ← symMerge_func (b - a) a (a + blockSize) b data;
        stable_merge_pairs fuel' blockSize n b (b + 2 * blockSize) data'
    end
  else Some (a, data).

(** [for blockSize < n { ...; blockSize *= 2 }] *)
Fixpoint stable_merge_rounds (fuel blockSize n : nat) (data : list A)
  : option (list A) :=
  if bool_decide (blockSize < n)%nat then
    match fuel with
    | O => None
    | S fuel' =>
        '(a, data) ← stable_merge_pairs n blockSize n 0 (2 * blockSize) data;
        data ← (let m := (a + blockSize)%nat in
                if bool_decide (m < n)%nat
                then symMerge_func (n - a) a m n data else Some data);
        stable_merge_rounds fuel' (2 * blockSize) n data
    end
  else Some data.

Definition stable_func (n : nat) (data : list A) : option (list A) :=
  let blockSize := 20%nat in
  '(a, data) ← stable_blocks n blockSize n 0 blockSize data;
  data ← insertionSort_func a n data;
  stable_merge_rounds n blockSize n data.

Definition SliceStable (x : list A) : option (list A) :=
  stable_func (length x) x.
End SliceStable.

(** ** [complete] *)

(** The comparison in the closure given to [sort.SliceStable]:
    [!(wordCounts[i].Count < wordCounts[j].Count)]. *)
Definition count_not_less (x y : WordCount) : bool :=
  negb (Count x <? Count y).

(** The [range] loop over [frequencies], whose entries come in the order
    [scan], and its [append]. *)
Definition collect (prefix : string) (scan : list (string * Z))
  : list WordCount :=
  foldl (λ wordCounts '(word, count),
           if HasPrefix word prefix
           then (wordCounts ++ [mkWordCount word count])%list
           else wordCounts) [] scan.

Definition complete (prefix : string) (scan : list (string * Z))
  : option (list string) :=
  match SliceStable count_not_less (collect prefix scan) with
  | Some wordCounts => Some (Word <$> wordCounts)
  | None => None
  end.

(** The orders in which a [range] loop may visit a map: every entry once. *)
Definition scan_of (frequencies : gmap string Z) (scan : list (string * Z))
  : Prop :=
  scan ≡ₚ map_to_list frequencies.

(** ** [respond]: the request handler *)

(** What [url.Parse] keeps of a request URI that the handler reads. *)
Record URL : Type := mkURL { Path : string }.

(** What the handler reads of [*http.Request]: the method, the outcome of
    [url.Parse(r.RequestURI)] ([None] when it reports an error) and
    [r.URL.Query().Get("term")]. *)
Record Request : Type := mkRequest {
  Method : string;
  RequestURI_parsed : option URL;
  Query_term : string
}.

(** What the handler writes: the [Content-Type] header, the status code
    and the body. *)
Record Response : Type := mkResponse {
  ContentType : string;
  Status : Z;
  Body : string
}.

Definition StatusOK : Z := 200.
Definition StatusBadRequest : Z := 400.
Definition StatusInternalServerError : Z := 500.

(** The double quote character. *)
Definition dquote : string := String (ascii_of_nat 34) EmptyString.

(** The bodies [{"message": "..."}] of lines 200 and 207. *)
Definition message_body (text : string) : string :=
  ("{" ++ dquote ++ "message" ++ dquote ++ ": " ++ dquote ++ text ++ dquote
       ++ "}")%string.

(** The body of line 203: [{"matches":] followed by the array and [}]. *)
Definition matches_body (array : string) : string :=
  ("{" ++ dquote ++ "matches" ++ dquote ++ ":" ++ array ++ "}")%string.

Section respond.
(** [encoding/json]'s rendering of one string value, quoted and escaped. *)
Variable json_string : string → string.

(** [json.Marshal] of a non-nil [[]string]: the array of the rendered
    elements, and no error (the encoder reports errors for unsupported
    types, cyclic values and failing [Marshaler] methods only). *)
Definition json_Marshal (v : list string) : string * option string :=
  (("[" ++ String.concat "," (json_string <$> v) ++ "]")%string, None).

(** The handler; [scan] is the order in which the [range] loop of
    [complete] visits [countMap] during this request.  [None] is a
    panic. *)
Definition respond (scan : list (string * Z)) (r : Request)
  : option Response :=
  match RequestURI_parsed r with
  | None => None
  | Some url =>
      let term := Query_term r in
      let supportedMethod := String.eqb (Method r) "GET" in
      let validEndpoint := String.eqb (Path url) "/autocomplete" in
      let includedTerm := negb (String.eqb term "") in
      let validRequest := supportedMethod && validEndpoint && includedTerm in
      if validRequest then
        match complete term scan with
        | None => None
        | Some matches =>
            match firstN matches 25 with
            | None => None
            | Some top25 =>
                match json_Marshal top25 with
                | (_, Some _) =>
                    Some (mkResponse "application/json"
                            StatusInternalServerError
                            (message_body "Internal service error"))
                | (top25json, None) =>
                    Some (mkResponse "application/json" StatusOK
                            (matches_body top25json))
                end
            end
        end
      else
        Some (mkResponse "application/json" StatusBadRequest
                (message_body "Unsupported request"))
  end.
End respond.

(** [complete] followed by [firstN], as lines 191 and 192 of [respond]
    chain them: the operation [Complete(index, prefix, limit)] of the
    engine. *)
Definition Complete (scan : list (string * Z)) (prefix : string) (limit : Z)
  : option (list string) :=
  match complete prefix scan with
  | Some matches => firstN matches limit
  | None => None
  end.

(** The order [complete] sorts into: larger counts first. *)
Definition by_count_desc : relation WordCount :=
  λ x y, Count y ≤ Count x.


(** ** Vocabulary of the statements *)

(** The number of times [w] occurs in [words]. *)
Definition occurrences (w : string) (words : list string) : Z :=
  Z.of_nat (length (filter (λ x, x = w) words)).

(** The sum of all counts of a frequency map. *)
Definition total (m : gmap string Z) : Z :=
  map_fold (λ _ v acc, v + acc) 0 m.

(** A state of the loop from which [n] more words can be counted without
    reaching the largest [int]. *)
Definition counts_within (n : nat) (m : gmap string Z) : Prop :=
  Z.of_nat n ≤ max_int
  ∧ ∀ k v, m !! k = Some v → 1 ≤ v ∧ v + Z.of_nat n ≤ max_int.

(** A slice made of sorted blocks of [bs] elements each, the last one
    possibly shorter: the state between two rounds of [stable_func].
    Every element of a block stood, in the slice given to the sort,
    before every element of the blocks that follow it ([later y x]: [y]
    stood after [x]). *)
Inductive blocks {A : Type} (R later : relation A) (bs : nat)
  : list A → Prop :=
  | blocks_last l :
      (length l ≤ bs)%nat → StronglySorted R l → blocks R later bs l
  | blocks_cons u l :
      length u = bs → StronglySorted R u →
      (∀ x y, x ∈ u → y ∈ l → later y x) →
      blocks R later bs l →
      blocks R later bs (u ++ l).

(** [stood_after l x y]: in [l], [x] is found at a later index than [y]. *)
Definition stood_after {A : Type} (l : list A) : relation A :=
  λ x y, ∃ i j, (j < i)%nat ∧ l !! i = Some x ∧ l !! j = Some y.

(** The order the sort of [complete] in fact produces from the collected
    entries [l]: larger counts first, and of two equal counts the one
    that stood later in [l] first. *)
Definition tie_order (l : list WordCount) : relation WordCount :=
  λ x y, Count y < Count x ∨ (Count x = Count y ∧ stood_after l x y).


(** What [Split] returns, by recursion on the text instead of by indices:
    the pieces between the runs of white space.  [tok] is the piece being
    read and [in_run] says whether the last character was white space. *)
Fixpoint fields_from (s : string) (tok : string) (in_run : bool)
  : list string :=
  match s with
  | EmptyString => [tok]
  | String c s' =>
      if is_space c
      then (if in_run then fields_from s' tok true
            else tok :: fields_from s' EmptyString true)
      else fields_from s' (tok ++ String c EmptyString)%string false
  end.

Definition fields (s : string) : list string :=
  fields_from s EmptyString false.

(** The letters a to z. *)
Definition is_lower (c : ascii) : bool :=
  let n := nat_of_ascii c in ((97 <=? n) && (n <=? 122))%nat.

(** Every character of [s] satisfies [p]. *)
Fixpoint string_forall (p : ascii → bool) (s : string) : bool :=
  match s with
  | EmptyString => true
  | String c s' => p c && string_forall p s'
  end.

(** The text begins, respectively ends, with a white space character. *)
Definition starts_with_space (s : string) : bool :=
  match s with
  | EmptyString => false
  | String c _ => is_space c
  end.

Fixpoint ends_with_space (s : string) : bool :=
  match s with
  | EmptyString => false
  | String c EmptyString => is_space c
  | String _ s' => ends_with_space s'
  end.


(** ** Examples used below *)

(** The index of the corpus [the cat sat on the mat the cat ran], and one
    order in which a [range] loop may visit it. *)
Definition example_scan : list (string * Z) :=
  [("the", 3); ("cat", 2); ("sat", 1); ("on", 1); ("mat", 1); ("ran", 1)].
Definition example_index : gmap string Z := list_to_map example_scan.

(** An index with two tokens of equal count. *)
Definition tie_scan : list (string * Z) := [("a", 1); ("b", 1)].
Definition tie_index : gmap string Z := list_to_map tie_scan.

(** [encoding/json]'s rendering of a string of lower-case letters: the
    string between double quotes. *)
Definition json_quote (s : string) : string := (dquote ++ s ++ dquote)%string.

(** A command line and a file system with one file. *)
Definition example_Args : list string := ["autocomplete"; "corpus.txt"].
Definition example_ReadFile (path : string) : option string :=
  if String.eqb path "corpus.txt" then Some "The cat. The mat!" else None.


(** * Properties *)

(** ** [firstN] *)

Lemma firstN_nonneg (words : list string) (n : Z) :
  0 ≤ n → firstN words n = Some (take (Z.to_nat n) words).
Proof.
  intros Hn. unfold firstN, slice_to.
  destruct (Z.ltb_spec n (Z.of_nat (length words))) as [Hlt|Hge].
  - rewrite (proj2 (Z.leb_le 0 n) Hn), (proj2 (Z.leb_le _ _) (Z.lt_le_incl _ _ Hlt)).
    done.
  - rewrite take_ge by lia. done.
Qed.

Lemma firstN_negative (words : list string) (n : Z) :
  n < 0 → firstN words n = None.
Proof.
  intros Hn. unfold firstN, slice_to.
  destruct (Z.ltb_spec n (Z.of_nat (length words))); [|lia].
  destruct (Z.leb_spec 0 n); [lia|done].
Qed.

(** C6: for a limit [n >= 0], [firstN] returns the first [n] entries; the
    result has length [min (len words) n], which is at most [n]; it is
    empty for [n = 0] and is the whole list when the list has at most [n]
    entries. *)
Theorem firstN_truncation (words : list string) (n : Z) :
  0 ≤ n →
  ∃ top, firstN words n = Some top
    ∧ top = take (Z.to_nat n) words
    ∧ Z.of_nat (length top) = Z.min (Z.of_nat (length words)) n
    ∧ Z.of_nat (length top) ≤ n
    ∧ (n = 0 → top = [])
    ∧ (Z.of_nat (length words) ≤ n → top = words).
Proof.
  intros Hn. exists (take (Z.to_nat n) words).
  split; [by apply firstN_nonneg|]. split; [done|].
  rewrite length_take. repeat split.
  - lia.
  - lia.
  - intros ->. done.
  - intros Hle. apply take_ge. lia.
Qed.

Lemma firstN_truncation_witness :
  ∃ top, firstN ["the"; "cat"; "sat"] 2 = Some top
    ∧ top = take (Z.to_nat 2) ["the"; "cat"; "sat"]
    ∧ Z.of_nat (length top) = Z.min (Z.of_nat (length ["the"; "cat"; "sat"])) 2
    ∧ Z.of_nat (length top) ≤ 2
    ∧ (2 = 0 → top = [])
    ∧ (Z.of_nat (length ["the"; "cat"; "sat"]) ≤ 2 → top = ["the"; "cat"; "sat"]).
Proof. apply (firstN_truncation ["the"; "cat"; "sat"] 2). lia. Defined.

(** C10: [firstN] returns normally exactly when [n >= 0]: whenever the
    guard sends it to the slice expression [words[:n]] with [n >= 0], the
    bounds check [0 <= n <= len words] of that expression passes, and
    with a negative [n] the guard always holds and the expression
    panics. *)
Theorem firstN_safe_iff_nonneg (words : list string) (n : Z) :
  (is_Some (firstN words n) ↔ 0 ≤ n)
  ∧ ((n <? Z.of_nat (length words)) = true →
     (is_Some (slice_to words n) ↔ 0 ≤ n < Z.of_nat (length words))).
Proof.
  split.
  - split.
    + intros [top Htop]. destruct (Z.le_gt_cases 0 n) as [|Hneg]; [done|].
      rewrite firstN_negative in Htop by lia. done.
    + intros Hn. rewrite firstN_nonneg by done. by eexists.
  - intros Hlt%Z.ltb_lt. unfold slice_to.
    destruct (Z.leb_spec 0 n); simpl.
    + rewrite (proj2 (Z.leb_le _ _)) by lia. split; [lia|by eexists].
    + split; [intros [? ?]; done | lia].
Qed.

(** ** [countWords] *)

Lemma wrap_in_range (z : Z) : min_int ≤ z ≤ max_int → wrap z = z.
Proof.
  unfold wrap, min_int, max_int, int_bits. intros Hz.
  rewrite Z.mod_small by lia. lia.
Qed.

Lemma occurrences_nil w : occurrences w [] = 0.
Proof. done. Qed.

Lemma occurrences_cons w x words :
  occurrences w (x :: words) =
  (if decide (x = w) then 1 else 0) + occurrences w words.
Proof.
  unfold occurrences. rewrite filter_cons.
  destruct (decide (x = w)); simpl; lia.
Qed.

Lemma occurrences_nonneg w words : 0 ≤ occurrences w words.
Proof. unfold occurrences. lia. Qed.

Lemma occurrences_le_length w words :
  occurrences w words ≤ Z.of_nat (length words).
Proof. unfold occurrences. pose proof (length_filter (λ x, x = w) words). lia. Qed.

Lemma occurrences_pos w words : w ∈ words ↔ 0 < occurrences w words.
Proof.
  induction words as [|x words IH].
  - rewrite occurrences_nil. split; [by intros ?%elem_of_nil|lia].
  - rewrite occurrences_cons, elem_of_cons.
    pose proof (occurrences_nonneg w words).
    destruct (decide (x = w)) as [->|Hne]; [split; [lia|by left]|].
    rewrite Z.add_0_l, <- IH. split; [intros [?|?]; congruence|by right].
Qed.

Lemma total_empty : total ∅ = 0.
Proof. unfold total. by rewrite map_fold_empty. Qed.

Lemma total_insert_fresh (m : gmap string Z) k v :
  m !! k = None → total (<[k := v]> m) = v + total m.
Proof.
  intros Hk. unfold total.
  rewrite map_fold_insert_L; [done| |done]. intros. lia.
Qed.

Lemma total_insert_present (m : gmap string Z) k v v' :
  m !! k = Some v' → total (<[k := v]> m) = v - v' + total m.
Proof.
  intros Hk.
  rewrite <- (insert_delete_eq m k v).
  rewrite <- (insert_delete_id m k v') at 2 by done.
  rewrite !total_insert_fresh by apply lookup_delete_eq. lia.
Qed.

Lemma counts_within_empty n : Z.of_nat n ≤ max_int → counts_within n ∅.
Proof. intros Hn. split; [done|]. intros k v. by rewrite lookup_empty. Qed.

Lemma countWords_step_within n m word :
  counts_within (S n) m → counts_within n (countWords_step m word).
Proof.
  intros [Hn Hm]. split; [lia|]. intros k v. unfold countWords_step.
  destruct (m !! word) as [count|] eqn:Hw.
  - destruct (Hm _ _ Hw). unfold int_add.
    rewrite wrap_in_range by (unfold min_int, int_bits in *; lia).
    rewrite lookup_insert. case_decide; [intros [= <-]; lia|].
    intros Hk. destruct (Hm _ _ Hk). lia.
  - rewrite lookup_insert. case_decide; [intros [= <-]; lia|].
    intros Hk. destruct (Hm _ _ Hk). lia.
Qed.

Lemma countWords_step_lookup n m word w :
  counts_within (S n) m →
  countWords_step m word !! w =
  if decide (word = w) then Some (default 0 (m !! w) + 1) else m !! w.
Proof.
  intros [Hn Hm]. unfold countWords_step.
  destruct (m !! word) as [count|] eqn:Hw.
  - destruct (Hm _ _ Hw). unfold int_add.
    rewrite wrap_in_range by (unfold min_int, int_bits in *; lia).
    rewrite lookup_insert. case_decide; [subst; by rewrite Hw|done].
  - rewrite lookup_insert. case_decide; [subst; by rewrite Hw|done].
Qed.

Lemma countWords_step_total n m word :
  counts_within (S n) m → total (countWords_step m word) = total m + 1.
Proof.
  intros [Hn Hm]. unfold countWords_step.
  destruct (m !! word) as [count|] eqn:Hw.
  - destruct (Hm _ _ Hw). unfold int_add.
    rewrite wrap_in_range by (unfold min_int, int_bits in *; lia).
    rewrite (total_insert_present _ _ _ count) by done. lia.
  - rewrite total_insert_fresh by done. lia.
Qed.

Lemma countWords_from_lookup m words w :
  counts_within (length words) m →
  countWords_from m words !! w =
  match m !! w with
  | Some v => Some (v + occurrences w words)
  | None => if decide (w ∈ words) then Some (occurrences w words) else None
  end.
Proof.
  revert m. induction words as [|x words IH]; intros m Hm.
  - cbn [countWords_from foldl]. rewrite occurrences_nil.
    destruct (m !! w); [f_equal; lia|].
    rewrite decide_False; [done|apply not_elem_of_nil].
  - cbn [countWords_from foldl]. fold (countWords_from (countWords_step m x) words).
    rewrite IH by by apply countWords_step_within.
    rewrite (countWords_step_lookup (length words)) by done.
    rewrite occurrences_cons.
    destruct (decide (x = w)) as [->|Hne].
    + destruct (m !! w); simpl; [f_equal; lia|].
      rewrite decide_True by by left. f_equal; lia.
    + destruct (m !! w); [f_equal; lia|].
      destruct (decide (w ∈ words)) as [Hin|Hnin].
      * rewrite decide_True by by right. f_equal; lia.
      * rewrite decide_False; [done|].
        rewrite elem_of_cons. intros [?|?]; [congruence|done].
Qed.

Lemma countWords_from_total m words :
  counts_within (length words) m →
  total (countWords_from m words) = total m + Z.of_nat (length words).
Proof.
  revert m. induction words as [|x words IH]; intros m Hm;
    cbn [countWords_from foldl length]; [lia|].
  fold (countWords_from (countWords_step m x) words).
  rewrite IH by by apply countWords_step_within.
  rewrite (countWords_step_total (length words)) by done. lia.
Qed.

Lemma countWords_lookup words w :
  Z.of_nat (length words) ≤ max_int →
  countWords words !! w =
  if decide (w ∈ words) then Some (occurrences w words) else None.
Proof.
  intros Hlen. unfold countWords.
  rewrite countWords_from_lookup by by apply counts_within_empty.
  by rewrite lookup_empty.
Qed.

(** C7: for a list of words (a slice, whose length is an [int]),
    [countWords] maps every word of the list to the number of its
    occurrences and has no entry for any other string, the counts add up
    to the length of the list, and the list a, b, a, c, a gives
    [{a:3, b:1, c:1}]. *)
Theorem countWords_exact_and_conserving (words : list string) :
  Z.of_nat (length words) ≤ max_int →
  (∀ w, w ∈ words → countWords words !! w = Some (occurrences w words))
  ∧ (∀ w, w ∉ words → countWords words !! w = None)
  ∧ total (countWords words) = Z.of_nat (length words)
  ∧ countWords ["a"; "b"; "a"; "c"; "a"]
    = <["a" := 3]> (<["b" := 1]> (<["c" := 1]> ∅)).
Proof.
  intros Hlen. split; [|split; [|split]].
  - intros w Hw. rewrite countWords_lookup by done. by rewrite decide_True.
  - intros w Hw. rewrite countWords_lookup by done. by rewrite decide_False.
  - unfold countWords.
    rewrite countWords_from_total by by apply counts_within_empty.
    rewrite total_empty. lia.
  - by vm_compute.
Qed.

Lemma countWords_exact_and_conserving_witness :
  (∀ w, w ∈ ["the"; "cat"; "the"] →
        countWords ["the"; "cat"; "the"] !! w
        = Some (occurrences w ["the"; "cat"; "the"]))
  ∧ (∀ w, w ∉ ["the"; "cat"; "the"] →
          countWords ["the"; "cat"; "the"] !! w = None)
  ∧ total (countWords ["the"; "cat"; "the"])
    = Z.of_nat (length ["the"; "cat"; "the"])
  ∧ countWords ["a"; "b"; "a"; "c"; "a"]
    = <["a" := 3]> (<["b" := 1]> (<["c" := 1]> ∅)).
Proof.
  apply (countWords_exact_and_conserving ["the"; "cat"; "the"]).
  vm_compute. discriminate.
Defined.

(** C8: at every point of the construction, that is in the map held after
    any number [i] of iterations of the loop, from which the rest of the
    loop produces the result, every key has a count of at least 1; and an
    iteration changes the map at the key of its word only, to 1 when the
    word is new and to one more than before otherwise. *)
Theorem countWords_positive_throughout (words : list string) (i : nat) :
  Z.of_nat (length words) ≤ max_int →
  countWords words = countWords_from (countWords (take i words)) (drop i words)
  ∧ (∀ k v, countWords (take i words) !! k = Some v → 1 ≤ v)
  ∧ (∀ k v, countWords words !! k = Some v → 1 ≤ v)
  ∧ (∀ word, words !! i = Some word →
       countWords (take (S i) words)
       = match countWords (take i words) !! word with
         | Some count => <[word := count + 1]> (countWords (take i words))
         | None => <[word := 1]> (countWords (take i words))
         end).
Proof.
  intros Hlen.
  assert (∀ l k v, Z.of_nat (length l) ≤ max_int →
            countWords l !! k = Some v → 1 ≤ v) as Hpos.
  { intros l k v Hl. rewrite countWords_lookup by done.
    case_decide as Hin; [|done]. intros [= <-].
    apply occurrences_pos in Hin. lia. }
  split; [|split; [|split]].
  - unfold countWords, countWords_from.
    by rewrite <- foldl_app, take_drop.
  - intros k v. apply Hpos. rewrite length_take. lia.
  - intros k v. by apply Hpos.
  - intros word Hword. rewrite (take_S_r _ _ _ Hword).
    unfold countWords at 1. unfold countWords_from. rewrite foldl_app.
    cbn [foldl]. fold (countWords_from ∅ (take i words)).
    fold (countWords (take i words)). unfold countWords_step.
    destruct (countWords (take i words) !! word) as [count|] eqn:Hcount;
      [|done].
    unfold int_add. rewrite wrap_in_range; [done|].
    apply lookup_lt_Some in Hword.
    rewrite countWords_lookup in Hcount by (rewrite length_take; lia).
    case_decide; [|done]. injection Hcount as <-.
    pose proof (occurrences_nonneg word (take i words)).
    pose proof (occurrences_le_length word (take i words)) as Hle.
    rewrite length_take in Hle.
    unfold min_int, max_int, int_bits in *. lia.
Qed.

Lemma countWords_positive_throughout_witness :
  countWords ["a"; "b"; "a"]
  = countWords_from (countWords (take 2 ["a"; "b"; "a"])) (drop 2 ["a"; "b"; "a"])
  ∧ (∀ k v, countWords (take 2 ["a"; "b"; "a"]) !! k = Some v → 1 ≤ v)
  ∧ (∀ k v, countWords ["a"; "b"; "a"] !! k = Some v → 1 ≤ v)
  ∧ (∀ word, ["a"; "b"; "a"] !! 2%nat = Some word →
       countWords (take 3 ["a"; "b"; "a"])
       = match countWords (take 2 ["a"; "b"; "a"]) !! word with
         | Some count =>
             <[word := count + 1]> (countWords (take 2 ["a"; "b"; "a"]))
         | None => <[word := 1]> (countWords (take 2 ["a"; "b"; "a"]))
         end).
Proof.
  apply (countWords_positive_throughout ["a"; "b"; "a"] 2).
  vm_compute. discriminate.
Defined.

(** ** [sort.SliceStable] *)

(** A segment is not empty, because of what is known of its length. *)
Local Ltac not_nil := intros ->; simpl in *; lia.

Section SliceStable_facts.
Context {A : Type} (elem_less : A → A → bool).

(** The order the closure stands for: [precedes x y] when [x] may come
    before [y] in the sorted slice.  The library only ever asks the
    closure whether an element that stood later in the slice given to
    the sort is less than one that stood earlier ([later x y]: [x] stood
    after [y]); the two hypotheses say how its answer to that question is
    read.  They hold for a strict weak order ([precedes x y] when [y] is
    not less than [x]) and also for the closure of [complete], which
    answers [true] on equal counts. *)
Context (precedes : relation A) `{!Transitive precedes}.
Context (later : relation A).
Hypothesis less_true :
  ∀ x y, later x y → elem_less x y = true → precedes x y.
Hypothesis less_false :
  ∀ x y, later x y → elem_less x y = false → precedes y x.

Local Abbreviation sorted := (StronglySorted precedes).
(** The elements of [l] still stand in the order of the slice given to
    the sort. *)
Local Abbreviation in_order := (StronglySorted (flip later)).
(** Every element of [v] stood after every element of [u]. *)
Local Abbreviation after u v := (∀ x y, x ∈ u → y ∈ v → later y x).

Lemma Less_lookup (data : list A) i j x y :
  data !! i = Some x → data !! j = Some y →
  Less elem_less i j data = Some (elem_less x y).
Proof. intros Hi Hj. unfold Less. by rewrite Hi, Hj. Qed.

Lemma Swap_adjacent (pre post : list A) x y k :
  k = length pre →
  Swap (S k) k (pre ++ x :: y :: post) = Some (pre ++ y :: x :: post)
  ∧ Swap k (k + 1) (pre ++ x :: y :: post) = Some (pre ++ y :: x :: post).
Proof.
  intros ->. unfold Swap.
  replace (length pre + 1)%nat with (S (length pre)) by lia.
  assert ((pre ++ x :: y :: post) !! length pre = Some x) as Hx
    by (by apply list_lookup_middle).
  assert ((pre ++ x :: y :: post) !! S (length pre) = Some y) as Hy.
  { rewrite lookup_app_r by lia.
    by replace (S (length pre) - length pre)%nat with 1%nat by lia. }
  rewrite Hx, Hy. simpl. split; f_equal.
  - rewrite (insert_app_r_alt _ _ (length pre)) by lia.
    rewrite Nat.sub_diag. simpl.
    rewrite (insert_app_r_alt _ _ (S (length pre))) by lia.
    by replace (S (length pre) - length pre)%nat with 1%nat by lia.
  - rewrite (insert_app_r_alt _ _ (S (length pre))) by lia.
    replace (S (length pre) - length pre)%nat with 1%nat by lia. simpl.
    rewrite (insert_app_r_alt _ _ (length pre)) by lia.
    by rewrite Nat.sub_diag.
Qed.

(** Swapping two elements that have a segment between them. *)
Lemma Swap_apart (pre mid post : list A) x y i j :
  i = length pre → j = (length pre + S (length mid))%nat →
  Swap i j (pre ++ x :: mid ++ y :: post)
  = Some (pre ++ y :: mid ++ x :: post).
Proof.
  intros -> ->. unfold Swap.
  assert ((pre ++ x :: mid ++ y :: post) !! length pre = Some x) as Hx
    by (by apply list_lookup_middle).
  assert ((pre ++ x :: mid ++ y :: post) !! (length pre + S (length mid))%nat
          = Some y) as Hy.
  { rewrite lookup_app_r by lia.
    replace (length pre + S (length mid) - length pre)%nat
      with (S (length mid)) by lia.
    simpl. by apply list_lookup_middle. }
  rewrite Hx, Hy. simpl. f_equal.
  rewrite (insert_app_r_alt _ _ (length pre + S (length mid))) by lia.
  replace (length pre + S (length mid) - length pre)%nat
    with (S (length mid)) by lia.
  simpl. rewrite (insert_app_r_alt _ _ (length mid)) by lia.
  rewrite Nat.sub_diag. simpl.
  rewrite (insert_app_r_alt _ _ (length pre)) by lia.
  by rewrite Nat.sub_diag.
Qed.

(** *** Insertion sort *)

Lemma sorted_snoc (l : list A) x :
  sorted l → (∀ y, y ∈ l → precedes y x) → sorted (l ++ [x]).
Proof.
  intros Hl Hx. apply StronglySorted_app_2; [|done|].
  - intros y x' Hy ->%list_elem_of_singleton. by apply Hx.
  - repeat constructor.
Qed.

(** The inner loop carries [x], found at index [j], to the left through
    the sorted segment [s] that starts at index [a]. *)
Lemma insertionSort_inner_spec (pre s rest : list A) x a j :
  a = length pre → j = (a + length s)%nat → sorted s →
  (∀ y, y ∈ s → later x y) →
  ∃ t, insertionSort_inner elem_less a j (pre ++ s ++ x :: rest)
       = Some (pre ++ t ++ rest)
     ∧ t ≡ₚ s ++ [x] ∧ sorted t.
Proof.
  intros -> Hj. revert j rest Hj.
  induction s as [|y s IH] using rev_ind; intros j rest -> Hs Hlater.
  - exists [x]. simpl. split; [|split; [done|repeat constructor]].
    rewrite Nat.add_0_r. destruct (length pre); [done|].
    cbn [insertionSort_inner]. rewrite bool_decide_eq_false_2 by lia. done.
  - rewrite length_app. simpl length.
    replace (length pre + (length s + 1))%nat
      with (S (length pre + length s)) by lia.
    cbn [insertionSort_inner]. rewrite bool_decide_eq_true_2 by lia.
    rewrite <- !(assoc_L (++)). cbn [app].
    apply StronglySorted_app in Hs as (Hsy & Hs & _).
    erewrite (Less_lookup _ _ _ x y); cycle 1.
    { rewrite (assoc_L (++)), lookup_app_r by (rewrite length_app; lia).
      rewrite length_app.
      by replace (S (length pre + length s) - (length pre + length s))%nat
        with 1%nat by lia. }
    { rewrite (assoc_L (++)).
      rewrite <- (length_app pre s). by apply list_lookup_middle. }
    assert (later x y) as Hxy_later by (apply Hlater; set_solver).
    assert (∀ z, z ∈ s → later x z) as Hlater' by (intros; apply Hlater; set_solver).
    simpl. destruct (elem_less x y) eqn:Hxy.
    + rewrite (assoc_L (++) pre s).
      destruct (Swap_adjacent (pre ++ s) rest y x (length pre + length s))
        as [-> _]; [by rewrite length_app|]. simpl.
      rewrite <- (assoc_L (++) pre s).
      destruct (IH (length pre + length s)%nat (y :: rest) eq_refl Hs Hlater')
        as (t & -> & Ht & Hst).
      exists (t ++ [y]). rewrite <- !(assoc_L (++)). split; [done|].
      split; [by rewrite Ht, <- !(assoc_L (++)), (comm (++) [x])|].
      apply sorted_snoc; [done|]. intros z Hz. rewrite Ht in Hz.
      apply elem_of_app in Hz as [Hz| ->%list_elem_of_singleton].
      * apply Hsy; [done|]. by apply list_elem_of_singleton.
      * by apply less_true.
    + exists (s ++ [y] ++ [x]). rewrite <- !(assoc_L (++)). split; [done|].
      split; [done|]. rewrite (assoc_L (++)). apply sorted_snoc.
      * apply sorted_snoc; [done|]. intros z Hz. apply Hsy; [done|].
        by apply list_elem_of_singleton.
      * intros z [Hz| ->%list_elem_of_singleton]%elem_of_app.
        -- trans y; [|by apply less_false].
           apply Hsy; [done|]. by apply list_elem_of_singleton.
        -- by apply less_false.
Qed.
Lemma insertionSort_loop_spec (pre s todo post : list A) a :
  a = length pre → sorted s → in_order todo → after s todo →
  ∃ t, insertionSort_loop elem_less (length todo) a (a + length s)
         (pre ++ s ++ todo ++ post)
       = Some (pre ++ t ++ post)
     ∧ t ≡ₚ s ++ todo ∧ sorted t.
Proof.
  intros ->. revert s.
  induction todo as [|x todo IH]; intros s Hs Htodo Hafter.
  - exists s. by rewrite !app_nil_r.
  - cbn [length insertionSort_loop app].
    apply StronglySorted_cons in Htodo as [Hx Htodo].
    rewrite Forall_forall in Hx.
    destruct (insertionSort_inner_spec pre s (todo ++ post) x
                (length pre) (length pre + length s) eq_refl eq_refl Hs)
      as (t & -> & Ht & Hst).
    { intros y Hy. apply Hafter; [done|by left]. }
    simpl. destruct (IH t Hst Htodo) as (t' & Ht' & Hp & Hst').
    { intros y z Hy Hz. rewrite Ht in Hy.
      apply elem_of_app in Hy as [Hy| ->%list_elem_of_singleton].
      - apply Hafter; [done|by right].
      - by apply Hx. }
    exists t'. split; [|split; [|done]].
    + rewrite <- Ht'. f_equal.
      apply Permutation_length in Ht. rewrite length_app in Ht. simpl in Ht.
      lia.
    + rewrite Hp, Ht, <- (assoc_L (++)). done.
Qed.

Lemma insertionSort_func_spec (pre blk post : list A) a b :
  a = length pre → b = (a + length blk)%nat → in_order blk →
  ∃ t, insertionSort_func elem_less a b (pre ++ blk ++ post)
       = Some (pre ++ t ++ post)
     ∧ t ≡ₚ blk ∧ sorted t.
Proof.
  intros -> -> Hblk. unfold insertionSort_func. destruct blk as [|x blk].
  - exists []. replace (length pre + length [] - (length pre + 1))%nat
      with 0%nat by (simpl; lia).
    split; [done|]. split; [done|constructor].
  - replace (length pre + length (x :: blk) - (length pre + 1))%nat
      with (length blk) by (simpl; lia).
    apply StronglySorted_cons in Hblk as [Hx Hblk].
    rewrite Forall_forall in Hx.
    destruct (insertionSort_loop_spec pre [x] blk post (length pre) eq_refl)
      as (t & Ht & Hp & Hst); [repeat constructor|done| |].
    { intros y z ->%list_elem_of_singleton Hz. by apply Hx. }
    exists t. by rewrite <- Ht.
Qed.


(** *** Rotation *)

Lemma swapRange_loop_spec (pre d1 xs mid d2 ys post : list A) a b i :
  a = length pre → i = length d1 → length d2 = length d1 →
  b = (length pre + length d1 + length xs + length mid)%nat →
  length ys = length xs →
  swapRange_loop (length xs) a b i
    (pre ++ d1 ++ xs ++ mid ++ d2 ++ ys ++ post)
  = Some (pre ++ d1 ++ ys ++ mid ++ d2 ++ xs ++ post).
Proof.
  intros -> Hi Hd Hb Hlen. revert d1 d2 ys i b Hi Hd Hb Hlen.
  induction xs as [|x xs IH]; intros d1 d2 ys i b -> Hd -> Hlen.
  - by destruct ys.
  - destruct ys as [|y ys]; [done|]. cbn [length swapRange_loop].
    pose proof (Swap_apart (pre ++ d1) (xs ++ mid ++ d2) (ys ++ post) x y
                  (length pre + length d1)
                  (length pre + length d1 + S (length xs) + length mid
                   + length d1))
      as Hswap.
    rewrite <- !(assoc_L (++)) in Hswap. cbn [app] in Hswap.
    cbn [app].
    rewrite Hswap; cycle 1.
    { by rewrite length_app. }
    { rewrite !length_app. lia. }
    cbn [mbind option_bind].
    specialize (IH (d1 ++ [y]) (d2 ++ [x]) ys (S (length d1))
                  (length pre + length d1 + S (length xs) + length mid)%nat).
    rewrite <- !(assoc_L (++)) in IH. cbn [app] in IH.
    apply IH.
    + rewrite length_app. simpl. lia.
    + rewrite !length_app. simpl. lia.
    + rewrite length_app. simpl. lia.
    + simpl in Hlen. lia.
Qed.

Lemma swapRange_func_spec (pre xs mid ys post : list A) a b n :
  a = length pre → b = (length pre + length xs + length mid)%nat →
  n = length xs → length ys = length xs →
  swapRange_func a b n (pre ++ xs ++ mid ++ ys ++ post)
  = Some (pre ++ ys ++ mid ++ xs ++ post).
Proof.
  intros -> -> -> Hlen. unfold swapRange_func.
  apply (swapRange_loop_spec pre [] xs mid [] ys post); simpl; lia.
Qed.


Lemma rotate_loop_spec fuel (pre u v post : list A) m :
  m = (length pre + length u)%nat → u ≠ [] → v ≠ [] →
  (length u + length v ≤ fuel)%nat →
  rotate_loop fuel m (length u) (length v) (pre ++ u ++ v ++ post)
  = Some (pre ++ v ++ u ++ post).
Proof.
  revert pre u v post m.
  induction fuel as [|fuel IH]; intros pre u v post m -> Hu Hv Hfuel.
  { destruct u; [done|]. simpl in Hfuel. lia. }
  assert (0 < length u)%nat by (destruct u; [done|simpl; lia]).
  assert (0 < length v)%nat by (destruct v; [done|simpl; lia]).
  cbn [rotate_loop]. case_bool_decide as Heq.
  { replace (length pre + length u - length u)%nat with (length pre) by lia.
    apply (swapRange_func_spec pre u [] v post); simpl; lia. }
  case_bool_decide as Hlt.
  - replace (length pre + length u - length u)%nat with (length pre) by lia.
    assert (∃ u1 u2, u = u1 ++ u2 ∧ length u1 = length v ∧ u2 ≠ [])
      as (u1 & u2 & -> & Hu1 & Hu2).
    { exists (take (length v) u), (drop (length v) u).
      rewrite take_drop, length_take. split; [done|]. split; [lia|].
      intros Hnil%(f_equal length). rewrite length_drop in Hnil.
      simpl in Hnil. lia. }
    rewrite length_app in *.
    rewrite <- (assoc_L (++) u1).
    rewrite (swapRange_func_spec pre u1 u2 v post); [|lia..].
    cbn [mbind option_bind].
    rewrite (assoc_L (++) pre v).
    replace (length u1 + length u2 - length v)%nat with (length u2) by lia.
    rewrite <- Hu1.
    rewrite (IH (pre ++ v) u2 u1 post).
    + by rewrite <- !(assoc_L (++)).
    + rewrite length_app. lia.
    + done.
    + not_nil.
    + lia.
  - replace (length pre + length u - length u)%nat with (length pre) by lia.
    assert (∃ v1 v2, v = v1 ++ v2 ∧ length v2 = length u ∧ v1 ≠ [])
      as (v1 & v2 & -> & Hv2 & Hv1).
    { exists (take (length v - length u) v), (drop (length v - length u) v).
      rewrite take_drop, length_drop. split; [done|]. split; [lia|].
      intros Hnil%(f_equal length). rewrite length_take in Hnil.
      simpl in Hnil. lia. }
    rewrite length_app in *.
    rewrite <- (assoc_L (++) v1).
    rewrite (swapRange_func_spec pre u v1 v2 post); [|lia..].
    cbn [mbind option_bind].
    replace (length v1 + length v2 - length u)%nat with (length v1) by lia.
    rewrite <- Hv2.
    rewrite (IH pre v2 v1 (u ++ post)).
    + by rewrite <- !(assoc_L (++)).
    + lia.
    + not_nil.
    + done.
    + lia.
Qed.

Lemma rotate_func_spec (pre u v post : list A) a m b :
  a = length pre → m = (a + length u)%nat → b = (m + length v)%nat →
  u ≠ [] → v ≠ [] →
  rotate_func a m b (pre ++ u ++ v ++ post) = Some (pre ++ v ++ u ++ post).
Proof.
  intros -> -> -> Hu Hv. unfold rotate_func.
  replace (length pre + length u - length pre)%nat with (length u) by lia.
  replace (length pre + length u + length v - (length pre + length u))%nat
    with (length v) by lia.
  apply rotate_loop_spec; [done..|lia].
Qed.


(** *** Binary search and the two one-element merges *)

Lemma half_bounds (n : nat) : (2 * (n / 2) ≤ n ≤ 2 * (n / 2) + 1)%nat.
Proof.
  pose proof (Nat.div_mod_eq n 2) as Hn.
  pose proof (Nat.mod_upper_bound n 2). lia.
Qed.

Lemma search_spec fuel (test : nat → option bool) i j :
  (i ≤ j)%nat → (j - i ≤ fuel)%nat →
  (∀ h, (i ≤ h < j)%nat → is_Some (test h)) →
  ∃ k, search fuel test i j = Some k ∧ (i ≤ k ≤ j)%nat
     ∧ (k = i ∨ test (k - 1)%nat = Some true)
     ∧ (k = j ∨ test k = Some false).
Proof.
  revert i j. induction fuel as [|fuel IH]; intros i j Hij Hfuel Htest.
  { exists i. simpl. rewrite bool_decide_eq_false_2 by lia.
    split; [done|]. split; [lia|]. split; [by left|left; lia]. }
  cbn [search]. case_bool_decide as Hlt; cycle 1.
  { exists i. split; [done|]. split; [lia|]. split; [by left|left; lia]. }
  set (h := ((i + j) / 2)%nat).
  assert (i ≤ h < j)%nat as Hh
    by (pose proof (half_bounds (i + j)); subst h; lia).
  destruct (Htest h Hh) as [t Ht]. rewrite Ht. cbn [mbind option_bind].
  destruct t.
  - destruct (IH (h + 1)%nat j) as (k & -> & Hk & Hl & Hr);
      [lia|lia|intros; apply Htest; lia|].
    exists k. split; [done|]. split; [lia|]. split; [|done].
    right. destruct Hl as [->|]; [|done].
    by replace (h + 1 - 1)%nat with h by lia.
  - destruct (IH i h) as (k & -> & Hk & Hl & Hr);
      [lia|lia|intros; apply Htest; lia|].
    exists k. split; [done|]. split; [lia|]. split; [done|].
    right. by destruct Hr as [->|].
Qed.

Lemma shift_up_spec (pre ys post : list A) x n k :
  k = length pre → n = length ys →
  shift_up n k (pre ++ x :: ys ++ post) = Some (pre ++ ys ++ x :: post).
Proof.
  revert pre n k. induction ys as [|y ys IH]; intros pre n k -> ->; [done|].
  cbn [length shift_up app].
  destruct (Swap_adjacent pre (ys ++ post) x y (length pre) eq_refl)
    as [_ ->].
  cbn [mbind option_bind].
  rewrite !(cons_middle y pre), !(assoc_L (++) pre [y]).
  apply IH; [rewrite length_app; simpl; lia|done].
Qed.

Lemma shift_down_spec (pre ys post : list A) x i k :
  i = length pre → k = (length pre + length ys)%nat →
  shift_down i k (pre ++ ys ++ x :: post) = Some (pre ++ x :: ys ++ post).
Proof.
  revert post k. induction ys as [|y ys IH] using rev_ind;
    intros post k -> ->.
  - rewrite Nat.add_0_r. simpl. destruct (length pre) eqn:Hpre; [done|].
    cbn [shift_down]. by rewrite bool_decide_eq_false_2 by lia.
  - rewrite length_app. simpl length.
    replace (length pre + (length ys + 1))%nat
      with (S (length pre + length ys)) by lia.
    cbn [shift_down]. rewrite bool_decide_eq_true_2 by lia.
    rewrite <- !(assoc_L (++)). cbn [app]. rewrite (assoc_L (++) pre ys).
    destruct (Swap_adjacent (pre ++ ys) post y x (length pre + length ys))
      as [-> _]; [by rewrite length_app|].
    cbn [mbind option_bind]. rewrite <- (assoc_L (++) pre ys).
    by rewrite (IH (y :: post) (length pre + length ys)%nat).
Qed.

(** *** Facts on sorted segments *)

Lemma sorted_before (l : list A) k z x :
  sorted l → l !! k = Some z → precedes z x →
  ∀ y, y ∈ take (S k) l → precedes y x.
Proof.
  intros Hl Hk Hzx y Hy.
  rewrite (take_S_r _ _ _ Hk) in Hy.
  apply elem_of_app in Hy as [Hy| ->%list_elem_of_singleton]; [|done].
  trans z; [|done].
  rewrite <- (take_drop_middle _ _ _ Hk) in Hl.
  apply StronglySorted_app in Hl as (Hcross & _ & _).
  apply Hcross; [done|]. by left.
Qed.

Lemma sorted_after (l : list A) k z x :
  sorted l → l !! k = Some z → precedes x z →
  ∀ y, y ∈ drop k l → precedes x y.
Proof.
  intros Hl Hk Hxz y Hy.
  rewrite <- (take_drop_middle _ _ _ Hk) in Hl.
  apply StronglySorted_app in Hl as (_ & _ & Hl).
  apply StronglySorted_cons in Hl as [Hz _].
  rewrite (drop_S _ _ _ Hk) in Hy.
  apply elem_of_cons in Hy as [->|Hy]; [done|].
  trans z; [done|]. rewrite Forall_forall in Hz. by apply Hz.
Qed.

Lemma sorted_take_drop (l : list A) k :
  sorted l →
  sorted (take k l) ∧ sorted (drop k l)
  ∧ ∀ y z, y ∈ take k l → z ∈ drop k l → precedes y z.
Proof.
  intros Hl. rewrite <- (take_drop k l) in Hl.
  apply StronglySorted_app in Hl as (? & ? & ?). done.
Qed.

(** Where the two segments under merge are found in the slice. *)
Lemma lookup_left (pre u rest : list A) c a :
  a = length pre → (a ≤ c < a + length u)%nat →
  (pre ++ u ++ rest) !! c = u !! (c - a)%nat.
Proof.
  intros -> Hc. rewrite lookup_app_r by lia. by rewrite lookup_app_l by lia.
Qed.

Lemma lookup_right (pre u v post : list A) c m :
  m = (length pre + length u)%nat → (m ≤ c < m + length v)%nat →
  (pre ++ u ++ v ++ post) !! c = v !! (c - m)%nat.
Proof.
  intros -> Hc. rewrite lookup_app_r by lia. rewrite lookup_app_r by lia.
  rewrite lookup_app_l by lia. f_equal. lia.
Qed.


Lemma Less_Some_inv (data : list A) i j t :
  Less elem_less i j data = Some t →
  ∃ x y, data !! i = Some x ∧ data !! j = Some y ∧ t = elem_less x y.
Proof.
  unfold Less. destruct (data !! i) as [x|]; [|done].
  destruct (data !! j) as [y|]; [|done]. intros [= <-]. by exists x, y.
Qed.

Lemma Less_is_Some (data : list A) i j :
  (i < length data)%nat → (j < length data)%nat →
  is_Some (Less elem_less i j data).
Proof.
  intros [x Hx]%lookup_lt_is_Some_2 [y Hy]%lookup_lt_is_Some_2.
  rewrite (Less_lookup _ _ _ x y) by done. by eexists.
Qed.

(** *** [symMerge_func] *)

(** The case [m - a == 1]: the single element [x] is inserted into the
    sorted segment [v] that follows it. *)
Lemma symMerge_one_left (pre v post : list A) x a m b :
  a = length pre → m = (a + 1)%nat → b = (m + length v)%nat → sorted v →
  after [x] v →
  ∃ w, (search (b - m) (λ h, Less elem_less h a (pre ++ [x] ++ v ++ post))
          m b
        ≫= λ i, shift_up (i - 1 - a) a (pre ++ [x] ++ v ++ post))
       = Some (pre ++ w ++ post)
     ∧ w ≡ₚ [x] ++ v ∧ sorted w.
Proof.
  intros -> -> -> Hv Hafter.
  assert (∀ z k, v !! k = Some z → later z x) as Hlater.
  { intros z k Hz%list_elem_of_lookup_2. apply Hafter; [by left|done]. }
  set (a := length pre). set (data := pre ++ [x] ++ v ++ post).
  assert (length data = (a + 1 + length v + length post)%nat) as Hlen.
  { subst data a. rewrite !length_app. simpl. lia. }
  assert (data !! a = Some x) as Ha by (by apply list_lookup_middle).
  assert (∀ c, (a + 1 ≤ c < a + 1 + length v)%nat →
               data !! c = v !! (c - (a + 1))%nat) as Hright.
  { intros c Hc. apply (lookup_right pre [x] v post); simpl; lia. }
  destruct (search_spec (a + 1 + length v - (a + 1))
              (λ h, Less elem_less h a data) (a + 1) (a + 1 + length v))
    as (i & -> & Hi & Hl & Hr); [lia|lia| |].
  { intros h Hh. apply Less_is_Some; lia. }
  cbn [mbind option_bind].
  set (k := (i - (a + 1))%nat).
  destruct (sorted_take_drop v k Hv) as (Hv1 & Hv2 & Hcross).
  exists (take k v ++ x :: drop k v). split; [|split].
  - subst data. rewrite <- (take_drop k v) at 1.
    rewrite <- !(assoc_L (++)). cbn [app].
    rewrite (shift_up_spec pre (take k v) (drop k v ++ post) x);
      [done|done|]. rewrite length_take. lia.
  - rewrite <- Permutation_middle. simpl. by rewrite take_drop.
  - apply StronglySorted_app_2; [|done|].
    + intros y z Hy [->|Hz]%elem_of_cons; [|by apply Hcross].
      destruct (decide (i = a + 1)%nat) as [->|Hne].
      { subst k. rewrite Nat.sub_diag in Hy. by apply elem_of_nil in Hy. }
      destruct Hl as [?|Hl]; [done|].
      apply Less_Some_inv in Hl as (zv & x' & Hzv & Hx' & Ht).
      rewrite Ha in Hx'. injection Hx' as <-.
      rewrite Hright in Hzv by lia.
      apply (sorted_before v (i - 1 - (a + 1)) zv); [done|done| |].
      * apply less_true; [by eapply Hlater|done].
      * by replace (S (i - 1 - (a + 1))) with k by lia.
    + apply StronglySorted_cons. split; [|done].
      apply Forall_forall. intros z Hz.
      destruct (decide (i = a + 1 + length v)%nat) as [->|Hne].
      { subst k. rewrite drop_ge in Hz by lia. by apply elem_of_nil in Hz. }
      destruct Hr as [?|Hr]; [done|].
      apply Less_Some_inv in Hr as (zv & x' & Hzv & Hx' & Ht).
      rewrite Ha in Hx'. injection Hx' as <-.
      rewrite Hright in Hzv by lia.
      apply (sorted_after v k zv); [done|done| |done].
      apply less_false; [by eapply Hlater|done].
Qed.

(** The case [b - m == 1]: the single element [y] is inserted into the
    sorted segment [u] that comes before it. *)
Lemma symMerge_one_right (pre u post : list A) y a m b :
  a = length pre → m = (a + length u)%nat → b = (m + 1)%nat → sorted u →
  after u [y] →
  ∃ w, (search (m - a)
          (λ h, negb <$> Less elem_less m h (pre ++ u ++ [y] ++ post)) a m
        ≫= λ i, shift_down i m (pre ++ u ++ [y] ++ post))
       = Some (pre ++ w ++ post)
     ∧ w ≡ₚ u ++ [y] ∧ sorted w.
Proof.
  intros -> -> -> Hu Hafter.
  assert (∀ z k, u !! k = Some z → later y z) as Hlater.
  { intros z k Hz%list_elem_of_lookup_2. apply Hafter; [done|by left]. }
  set (a := length pre). set (data := pre ++ u ++ [y] ++ post).
  assert (length data = (a + length u + 1 + length post)%nat) as Hlen.
  { subst data a. rewrite !length_app. simpl. lia. }
  assert (data !! (a + length u)%nat = Some y) as Hm.
  { subst data a. rewrite (assoc_L (++) pre u), <- length_app.
    by apply list_lookup_middle. }
  assert (∀ c, (a ≤ c < a + length u)%nat →
               data !! c = u !! (c - a)%nat) as Hleft.
  { intros c Hc. by apply lookup_left. }
  destruct (search_spec (a + length u - a)
              (λ h, negb <$> Less elem_less (a + length u) h data)
              a (a + length u))
    as (i & -> & Hi & Hl & Hr); [lia|lia| |].
  { intros h Hh. apply fmap_is_Some, Less_is_Some; lia. }
  cbn [mbind option_bind].
  set (k := (i - a)%nat).
  destruct (sorted_take_drop u k Hu) as (Hu1 & Hu2 & Hcross).
  exists (take k u ++ y :: drop k u). split; [|split].
  - subst data.
    replace (pre ++ u ++ [y] ++ post)
      with ((pre ++ take k u) ++ drop k u ++ y :: post)
      by (by rewrite <- (assoc_L (++)), (assoc_L (++) (take k u)), take_drop).
    rewrite (shift_down_spec (pre ++ take k u) (drop k u) post y).
    + by rewrite <- !(assoc_L (++)).
    + rewrite length_app, length_take. lia.
    + rewrite length_app, length_take, length_drop. lia.
  - rewrite <- Permutation_middle, Permutation_cons_append.
    by rewrite take_drop.
  - apply StronglySorted_app_2; [|done|].
    + intros x z Hx [->|Hz]%elem_of_cons; [|by apply Hcross].
      destruct (decide (i = a)) as [->|Hne].
      { subst k. rewrite Nat.sub_diag in Hx. by apply elem_of_nil in Hx. }
      destruct Hl as [?|Hl]; [done|].
      apply fmap_Some in Hl as (t & Hl & Ht).
      apply Less_Some_inv in Hl as (y' & zu & Hy' & Hzu & ->).
      rewrite Hm in Hy'. injection Hy' as <-.
      rewrite Hleft in Hzu by lia.
      apply (sorted_before u (i - 1 - a) zu); [done|done| |].
      * apply less_false; [by eapply Hlater|by destruct (elem_less y zu)].
      * by replace (S (i - 1 - a)) with k by lia.
    + apply StronglySorted_cons. split; [|done].
      apply Forall_forall. intros z Hz.
      destruct (decide (i = a + length u)%nat) as [->|Hne].
      { subst k. rewrite drop_ge in Hz by lia. by apply elem_of_nil in Hz. }
      destruct Hr as [?|Hr]; [done|].
      apply fmap_Some in Hr as (t & Hr & Ht).
      apply Less_Some_inv in Hr as (y' & zu & Hy' & Hzu & ->).
      rewrite Hm in Hy'. injection Hy' as <-.
      rewrite Hleft in Hzu by lia.
      apply (sorted_after u k zu); [done|done| |done].
      apply less_true; [by eapply Hlater|by destruct (elem_less y zu)].
Qed.


Lemma symMerge_func_spec fuel (pre u v post : list A) a m b :
  a = length pre → m = (a + length u)%nat → b = (m + length v)%nat →
  u ≠ [] → v ≠ [] → sorted u → sorted v → after u v →
  (length u + length v ≤ fuel)%nat →
  ∃ w, symMerge_func elem_less fuel a m b (pre ++ u ++ v ++ post)
       = Some (pre ++ w ++ post)
     ∧ w ≡ₚ u ++ v ∧ sorted w.
Proof.
  revert pre u v post a m b.
  induction fuel as [|fuel IH];
    intros pre u v post a m b Ha Hm Hb Hu Hv Hsu Hsv Hafter Hfuel.
  { destruct u; [done|]. simpl in Hfuel. lia. }
  assert (0 < length u)%nat by (destruct u; [done|simpl; lia]).
  assert (0 < length v)%nat by (destruct v; [done|simpl; lia]).
  cbn [symMerge_func]. case_bool_decide as Hone.
  { destruct u as [|x [|??]]; [done| |simpl in *; lia].
    apply (symMerge_one_left pre v post x a m b);
      [done|simpl in *; lia|done..]. }
  case_bool_decide as Hone'.
  { destruct v as [|y [|??]]; [done| |simpl in *; lia].
    apply (symMerge_one_right pre u post y a m b);
      [done|done|simpl in *; lia|done..]. }
  assert (2 ≤ length u)%nat as Hu2' by lia.
  assert (2 ≤ length v)%nat as Hv2' by lia.
  clear Hone Hone'.
  pose proof (half_bounds (a + b)) as Hmid.
  remember (pre ++ u ++ v ++ post) as data eqn:Hdata.
  remember ((a + b) / 2)%nat as mid eqn:Hmid_eq. clear Hmid_eq.
  remember (mid + m)%nat as n eqn:Hn.
  remember (n - 1)%nat as p eqn:Hp.
  assert (n = p + 1)%nat as Hp' by lia.
  assert (∃ start0 r0,
    (if bool_decide (mid < m)%nat then ((n - b)%nat, mid) else (a, m))
    = (start0, r0)
    ∧ (a ≤ start0 ≤ r0)%nat ∧ (r0 ≤ m)%nat
    ∧ (m + r0 ≤ n)%nat ∧ (n ≤ b + start0)%nat
    ∧ (start0 = a ∨ n = (b + start0)%nat)
    ∧ (r0 = m ∨ n = (m + r0)%nat))
    as (start0 & r0 & -> & Hs0 & Hr0 & Hn1 & Hn2 & Hs0' & Hr0').
  { case_bool_decide.
    - exists (n - b)%nat, mid. repeat split; try lia.
    - exists a, m. repeat split; try lia. }
  clear Hp.
  assert (length data = (a + length u + length v + length post)%nat)
    as Hlen by (subst data a; rewrite !length_app; lia).
  assert (∀ c, (a ≤ c < m)%nat → data !! c = u !! (c - a)%nat) as Hleft.
  { intros c Hc. subst data. apply lookup_left; [done|lia]. }
  assert (∀ c, (m ≤ c < b)%nat → data !! c = v !! (c - m)%nat) as Hright.
  { intros c Hc. subst data. apply lookup_right; lia. }
  destruct (search_spec (r0 - start0)
              (λ c, negb <$> Less elem_less (p - c) c data) start0 r0)
    as (start & -> & Hstart & Hl & Hr); [lia|lia| |].
  { intros c Hc. apply fmap_is_Some, Less_is_Some; lia. }
  cbn [mbind option_bind].
  remember (n - start)%nat as end_ eqn:Hend_.
  assert (n = end_ + start)%nat as Hend_' by lia. clear Hend_.
  assert (m ≤ end_ ≤ b)%nat as Hend by lia.
  remember (start - a)%nat as k1 eqn:Hk1.
  assert (start = a + k1)%nat as Hk1' by lia. clear Hk1.
  remember (end_ - m)%nat as k2 eqn:Hk2.
  assert (end_ = m + k2)%nat as Hk2' by lia. clear Hk2.
  destruct (sorted_take_drop u k1 Hsu) as (Hu1 & Hu2 & Hu12).
  destruct (sorted_take_drop v k2 Hsv) as (Hv1 & Hv2 & Hv12).
  assert (length (take k1 u) = k1) as Hlu1 by (rewrite length_take; lia).
  assert (m = start + length (drop k1 u))%nat as Hlu2
    by (rewrite length_drop; lia).
  assert (length (take k2 v) = k2) as Hlv1 by (rewrite length_take; lia).
  assert (b = end_ + length (drop k2 v))%nat as Hlv2
    by (rewrite length_drop; lia).
  pose proof (take_drop k1 u) as Hu_eq. pose proof (take_drop k2 v) as Hv_eq.
  remember (take k1 u) as u1 eqn:Hu1_eq. remember (drop k1 u) as u2 eqn:Hu2_eq.
  remember (take k2 v) as v1 eqn:Hv1_eq. remember (drop k2 v) as v2 eqn:Hv2_eq.
  (* the two halves are rightly ordered with respect to each other *)
  assert (∀ y z, y ∈ u1 → z ∈ v2 → precedes y z) as Hu1v2.
  { intros y z Hy Hz.
    destruct (decide (start = start0)) as [->|Hne].
    { destruct Hs0' as [->|Hn'].
      - assert (u1 = []) as -> by (apply nil_length_inv; lia).
        by apply elem_of_nil in Hy.
      - assert (v2 = []) as -> by (apply nil_length_inv; lia).
        by apply elem_of_nil in Hz. }
    destruct Hl as [?|Hl]; [done|].
    apply fmap_Some in Hl as (t & Hl & Ht).
    apply Less_Some_inv in Hl as (zv & zu & Hzv & Hzu & ->).
    rewrite Hright in Hzv by lia.
    rewrite Hleft in Hzu by lia.
    assert (precedes zu zv).
    { apply less_false; [|by destruct (elem_less zv zu)].
      apply Hafter; by eapply list_elem_of_lookup_2. }
    assert (precedes y zv).
    { apply (sorted_before u (start - 1 - a) zu zv); [done..|].
      replace (S (start - 1 - a)) with k1 by lia. by rewrite <- Hu1_eq. }
    apply (sorted_after v k2 zv y); [done| |done|by rewrite <- Hv2_eq].
    rewrite <- Hzv. f_equal. lia. }
  assert (∀ y z, y ∈ v1 → z ∈ u2 → precedes y z) as Hv1u2.
  { intros y z Hy Hz.
    destruct (decide (start = r0)) as [->|Hne].
    { destruct Hr0' as [->|Hn'].
      - assert (u2 = []) as -> by (apply nil_length_inv; lia).
        by apply elem_of_nil in Hz.
      - assert (v1 = []) as -> by (apply nil_length_inv; lia).
        by apply elem_of_nil in Hy. }
    destruct Hr as [?|Hr]; [done|].
    apply fmap_Some in Hr as (t & Hr & Ht).
    apply Less_Some_inv in Hr as (zv & zu & Hzv & Hzu & ->).
    rewrite Hright in Hzv by lia.
    rewrite Hleft in Hzu by lia.
    assert (precedes zv zu).
    { apply less_true; [|by destruct (elem_less zv zu)].
      apply Hafter; by eapply list_elem_of_lookup_2. }
    assert (precedes y zu).
    { apply (sorted_before v (p - start - m) zv zu); [done..|].
      replace (S (p - start - m)) with k2 by lia. by rewrite <- Hv1_eq. }
    apply (sorted_after u k1 zu y); [done| |done|by rewrite <- Hu2_eq].
    rewrite <- Hzu. f_equal. lia. }
  (* the rotation *)
  assert ((if bool_decide (start < m < end_)%nat
           then rotate_func start m end_ data else Some data)
          = Some (pre ++ u1 ++ v1 ++ u2 ++ v2 ++ post)) as ->.
  { subst data. rewrite <- Hu_eq, <- Hv_eq. case_bool_decide as Hrot.
    - rewrite <- !(assoc_L (++)), (assoc_L (++) pre u1).
      rewrite (rotate_func_spec (pre ++ u1) u2 v1 (v2 ++ post)).
      + by rewrite <- !(assoc_L (++)).
      + rewrite length_app. lia.
      + lia.
      + lia.
      + not_nil.
      + not_nil.
    - destruct (decide (start = m)) as [->|?].
      + assert (u2 = []) as -> by (apply nil_length_inv; lia).
        by rewrite app_nil_r, <- !(assoc_L (++)).
      + assert (v1 = []) as -> by (apply nil_length_inv; lia).
        by rewrite <- !(assoc_L (++)). }
  cbn [mbind option_bind].
  (* the merge of the left halves *)
  assert (∃ w1, (if bool_decide (a < start < mid)%nat
                 then symMerge_func elem_less fuel a start mid
                        (pre ++ u1 ++ v1 ++ u2 ++ v2 ++ post)
                 else Some (pre ++ u1 ++ v1 ++ u2 ++ v2 ++ post))
                = Some (pre ++ w1 ++ u2 ++ v2 ++ post)
              ∧ w1 ≡ₚ u1 ++ v1 ∧ sorted w1) as (w1 & -> & Hw1 & Hsw1).
  { case_bool_decide as Hrec.
    - destruct (IH pre u1 v1 (u2 ++ v2 ++ post) a start mid)
        as (w1 & Hw1 & ? & ?); [lia|lia|lia| | |done|done| |lia|].
      + not_nil.
      + not_nil.
      + intros x y Hx Hy. apply Hafter; rewrite <- ?Hu_eq, <- ?Hv_eq;
          apply elem_of_app; by left.
      + by exists w1.
    - exists (u1 ++ v1). rewrite <- !(assoc_L (++)). split; [done|].
      split; [done|].
      destruct (decide (start = a)) as [->|?].
      + assert (u1 = []) as -> by (apply nil_length_inv; lia). done.
      + assert (v1 = []) as -> by (apply nil_length_inv; lia).
        by rewrite app_nil_r. }
  cbn [mbind option_bind].
  assert (length w1 = (mid - a)%nat) as Hlw1.
  { rewrite Hw1, length_app. lia. }
  (* the merge of the right halves *)
  assert (∃ w2, (if bool_decide (mid < end_ < b)%nat
                 then symMerge_func elem_less fuel mid end_ b
                        (pre ++ w1 ++ u2 ++ v2 ++ post)
                 else Some (pre ++ w1 ++ u2 ++ v2 ++ post))
                = Some (pre ++ w1 ++ w2 ++ post)
              ∧ w2 ≡ₚ u2 ++ v2 ∧ sorted w2) as (w2 & -> & Hw2 & Hsw2).
  { case_bool_decide as Hrec.
    - rewrite (assoc_L (++) pre w1).
      destruct (IH (pre ++ w1) u2 v2 post mid end_ b)
        as (w2 & Hw2 & ? & ?); [|lia|lia| | |done|done| |lia|].
      + rewrite length_app. lia.
      + not_nil.
      + not_nil.
      + intros x y Hx Hy. apply Hafter; rewrite <- ?Hu_eq, <- ?Hv_eq;
          apply elem_of_app; by right.
      + exists w2. rewrite <- ?(assoc_L (++)) in *. done.
    - exists (u2 ++ v2). rewrite <- !(assoc_L (++)). split; [done|].
      split; [done|].
      destruct (decide (end_ = b)) as [->|?].
      + assert (v2 = []) as -> by (apply nil_length_inv; lia).
        by rewrite app_nil_r.
      + assert (u2 = []) as -> by (apply nil_length_inv; lia). done. }
  exists (w1 ++ w2). rewrite <- !(assoc_L (++)). split; [done|]. split.
  - rewrite Hw1, Hw2, <- Hu_eq, <- Hv_eq, <- !(assoc_L (++)).
    f_equiv. rewrite !(assoc_L (++)). f_equiv. apply (comm (++)).
  - apply StronglySorted_app_2; [|done..].
    intros y z. rewrite Hw1, Hw2, !elem_of_app.
    intros [?|?] [?|?]; eauto.
Qed.


(** *** [stable_func] *)

Lemma blocks_nil bs : blocks precedes later bs [].
Proof. apply blocks_last; [simpl; lia|constructor]. Qed.

Lemma blocks_split bs (l : list A) :
  blocks precedes later bs l → (bs ≤ length l)%nat →
  ∃ v rest, l = v ++ rest ∧ length v = bs ∧ sorted v ∧ after v rest
          ∧ blocks precedes later bs rest.
Proof.
  intros [l' Hlen Hs|u l' Hlen Hs Hafter Hl'] Hbs.
  - exists l', []. rewrite app_nil_r. split; [done|]. split; [lia|].
    split; [done|]. split; [|apply blocks_nil].
    intros x y _ Hy. by apply elem_of_nil in Hy.
  - by exists u, l'.
Qed.

Lemma blocks_short bs (l : list A) :
  blocks precedes later bs l → (length l ≤ bs)%nat → sorted l.
Proof.
  intros [l' Hlen Hs|u l' Hlen Hs Hafter Hl'] Hbs; [done|].
  rewrite length_app in Hbs.
  assert (l' = []) as -> by (apply nil_length_inv; lia).
  by rewrite app_nil_r.
Qed.

Lemma after_app_l (u1 u2 v : list A) :
  after u1 v → after u2 v → after (u1 ++ u2) v.
Proof. intros H1 H2 x y [?|?]%elem_of_app ?; eauto. Qed.

Lemma after_app_r (u v1 v2 : list A) :
  after u v1 → after u v2 → after u (v1 ++ v2).
Proof. intros H1 H2 x y ? [?|?]%elem_of_app; eauto. Qed.

Lemma after_Permutation (u u' v v' : list A) :
  u ≡ₚ u' → v ≡ₚ v' → after u v → after u' v'.
Proof. intros Hu Hv H1 x y Hx Hy. apply H1; by rewrite ?Hu, ?Hv. Qed.

Lemma stable_blocks_spec fuel bs n (pre todo : list A) a b :
  (0 < bs)%nat → a = length pre → b = (a + bs)%nat →
  n = (length pre + length todo)%nat → (length todo ≤ fuel)%nat →
  in_order todo →
  ∃ front last,
    stable_blocks elem_less fuel bs n a b (pre ++ todo)
    = Some ((length pre + length front)%nat, pre ++ front ++ last)
    ∧ front ++ last ≡ₚ todo ∧ (length last < bs)%nat
    ∧ in_order last ∧ after front last
    ∧ ∀ tail, blocks precedes later bs tail → after front tail →
              blocks precedes later bs (front ++ tail).
Proof.
  intros Hbs. revert pre todo a b.
  induction fuel as [|fuel IH]; intros pre todo a b -> -> -> Hfuel Htodo.
  - exists [], todo. simpl. rewrite bool_decide_eq_false_2 by lia.
    rewrite Nat.add_0_r. repeat split; [done|lia|done| |done].
    intros x y Hx. by apply elem_of_nil in Hx.
  - cbn [stable_blocks]. case_bool_decide as Hle; cycle 1.
    { exists [], todo. rewrite Nat.add_0_r.
      repeat split; [done|lia|done| |done].
      intros x y Hx. by apply elem_of_nil in Hx. }
    rewrite <- (take_drop bs todo) in Htodo.
    apply StronglySorted_app in Htodo as (Hcross & Htake & Hdrop).
    replace (pre ++ todo) with (pre ++ take bs todo ++ drop bs todo)
      by (by rewrite take_drop).
    destruct (insertionSort_func_spec pre (take bs todo) (drop bs todo)
                (length pre) (length pre + bs))
      as (t & -> & Ht & Hst); [done|rewrite length_take; lia|done|].
    cbn [mbind option_bind].
    assert (length t = bs) as Hlt by (rewrite Ht, length_take; lia).
    rewrite (assoc_L (++) pre t).
    destruct (IH (pre ++ t) (drop bs todo) (length pre + bs)%nat
                (length pre + bs + bs)%nat)
      as (front & last & -> & Hperm & Hlast & Hlast_order & Hafter & Hblocks).
    + rewrite length_app. lia.
    + done.
    + rewrite length_app, length_drop. lia.
    + rewrite length_drop. lia.
    + done.
    + assert (after t (front ++ last)) as Ht_after.
      { intros x y Hx Hy. rewrite Ht in Hx. rewrite Hperm in Hy.
        by apply Hcross. }
      exists (t ++ front), last. rewrite !length_app.
      rewrite <- !(assoc_L (++)). split; [f_equal; f_equal; lia|].
      split; [|split; [done|split; [done|split]]].
      * rewrite Hperm, Ht. by rewrite take_drop.
      * apply after_app_l; [|done].
        intros x y Hx Hy. apply Ht_after; [done|]. apply elem_of_app. by right.
      * intros tail Htail Hafter_tail. rewrite <- (assoc_L (++)).
        apply blocks_cons; [done|done| |].
        -- apply after_app_r.
           ++ intros x y Hx Hy. apply Ht_after; [done|].
              apply elem_of_app. by left.
           ++ intros x y Hx Hy. apply Hafter_tail; [|done].
              apply elem_of_app. by left.
        -- apply Hblocks; [done|].
           intros x y Hx Hy. apply Hafter_tail; [|done].
           apply elem_of_app. by right.
Qed.

Lemma stable_merge_pairs_spec fuel bs n (pre todo : list A) a b :
  (0 < bs)%nat → a = length pre → b = (a + 2 * bs)%nat →
  n = (length pre + length todo)%nat → (length todo ≤ fuel)%nat →
  blocks precedes later bs todo →
  ∃ front rest,
    stable_merge_pairs elem_less fuel bs n a b (pre ++ todo)
    = Some ((length pre + length front)%nat, pre ++ front ++ rest)
    ∧ front ++ rest ≡ₚ todo ∧ (length rest < 2 * bs)%nat
    ∧ blocks precedes later bs rest ∧ after front rest
    ∧ ∀ tail, blocks precedes later (2 * bs) tail → after front tail →
              blocks precedes later (2 * bs) (front ++ tail).
Proof.
  intros Hbs. revert pre todo a b.
  induction fuel as [|fuel IH]; intros pre todo a b -> -> -> Hfuel Htodo.
  - exists [], todo. simpl. rewrite bool_decide_eq_false_2 by lia.
    rewrite Nat.add_0_r. repeat split; [done|lia|done| |done].
    intros x y Hx. by apply elem_of_nil in Hx.
  - cbn [stable_merge_pairs]. case_bool_decide as Hle; cycle 1.
    { exists [], todo. rewrite Nat.add_0_r.
      repeat split; [done|lia|done| |done].
      intros x y Hx. by apply elem_of_nil in Hx. }
    destruct (blocks_split bs todo Htodo)
      as (u & l & -> & Hlu & Hsu & Hul & Hl); [lia|].
    rewrite length_app in Hle, Hfuel.
    destruct (blocks_split bs l Hl)
      as (v & rest & -> & Hlv & Hsv & Hvrest & Hrest); [lia|].
    rewrite length_app in Hle, Hfuel.
    destruct (symMerge_func_spec
                (length pre + 2 * bs - length pre) pre u v rest
                (length pre) (length pre + bs) (length pre + 2 * bs))
      as (w & -> & Hw & Hsw); [done|lia|lia| | |done|done| |lia|].
    { not_nil. }
    { not_nil. }
    { intros x y Hx Hy. apply Hul; [done|]. apply elem_of_app. by left. }
    cbn [mbind option_bind].
    assert (length w = (2 * bs)%nat) as Hlw
      by (rewrite Hw, length_app; lia).
    rewrite (assoc_L (++) pre w).
    destruct (IH (pre ++ w) rest (length pre + 2 * bs)%nat
                (length pre + 2 * bs + 2 * bs)%nat)
      as (front & rest' & -> & Hperm & Hlast & Hblocks & Hafter & Hdone).
    + rewrite length_app. lia.
    + done.
    + rewrite !length_app. lia.
    + lia.
    + done.
    + assert (after w (front ++ rest')) as Hw_after.
      { intros x y Hx Hy. rewrite Hw in Hx. rewrite Hperm in Hy.
        apply elem_of_app in Hx as [Hx|Hx].
        - apply Hul; [done|]. apply elem_of_app. by right.
        - by apply Hvrest. }
      exists (w ++ front), rest'. rewrite !length_app.
      rewrite <- !(assoc_L (++)). split; [f_equal; f_equal; lia|].
      split; [|split; [done|split; [done|split]]].
      * rewrite Hperm, Hw. by rewrite <- !(assoc_L (++)).
      * apply after_app_l; [|done].
        intros x y Hx Hy. apply Hw_after; [done|]. apply elem_of_app. by right.
      * intros tail Htail Hafter_tail. rewrite <- (assoc_L (++)).
        apply blocks_cons; [done|done| |].
        -- apply after_app_r.
           ++ intros x y Hx Hy. apply Hw_after; [done|].
              apply elem_of_app. by left.
           ++ intros x y Hx Hy. apply Hafter_tail; [|done].
              apply elem_of_app. by left.
        -- apply Hdone; [done|].
           intros x y Hx Hy. apply Hafter_tail; [|done].
           apply elem_of_app. by right.
Qed.

(** One round: the pairs of the [for] loop and the pair left over. *)
Lemma stable_merge_round_spec bs n (data : list A) :
  (0 < bs)%nat → n = length data → blocks precedes later bs data →
  ∃ data',
    (stable_merge_pairs elem_less n bs n 0 (2 * bs) data
     ≫= λ '(a, d),
          if bool_decide (a + bs < n)%nat
          then symMerge_func elem_less (n - a) a (a + bs) n d
          else Some d)
    = Some data'
    ∧ data' ≡ₚ data ∧ blocks precedes later (2 * bs) data'.
Proof.
  intros Hbs -> Hdata.
  destruct (stable_merge_pairs_spec (length data) bs (length data) [] data
              0 (2 * bs))
    as (front & rest & Hrun & Hperm & Hlen & Hrest & Hafter & Hdone);
    [done..|].
  cbn [app length Nat.add] in Hrun. rewrite Hrun. cbn [mbind option_bind].
  assert (length data = (length front + length rest)%nat) as Hlendata
    by (by rewrite <- Hperm, length_app).
  rewrite Hlendata. case_bool_decide as Hpair.
  - destruct (blocks_split bs rest Hrest)
      as (u & v & -> & Hlu & Hsu & Huv & Hv); [lia|].
    rewrite length_app in Hpair, Hlen.
    assert (sorted v) as Hsv by (apply (blocks_short bs); [done|lia]).
    rewrite length_app.
    destruct (symMerge_func_spec
                (length front + (length u + length v) - length front)
                front u v [] (length front) (length front + bs)
                (length front + (length u + length v)))
      as (w & Hw & Hpw & Hsw); [done|lia|lia| | |done|done|done|lia|].
    { not_nil. }
    { not_nil. }
    rewrite !app_nil_r in Hw. rewrite Hw.
    exists (front ++ w). split; [done|]. split.
    + by rewrite Hpw, <- Hperm.
    + apply Hdone; [apply blocks_last; [|done]|].
      * rewrite Hpw, length_app. lia.
      * by apply (after_Permutation front front (u ++ v) w).
  - exists (front ++ rest). split; [done|]. split; [done|].
    apply Hdone; [|done]. apply blocks_last; [lia|].
    apply (blocks_short bs); [done|lia].
Qed.

Lemma stable_merge_rounds_spec fuel bs (data : list A) :
  (0 < bs)%nat → (length data ≤ bs + fuel)%nat →
  blocks precedes later bs data →
  ∃ data',
    stable_merge_rounds elem_less fuel bs (length data) data = Some data'
    ∧ data' ≡ₚ data ∧ sorted data'.
Proof.
  revert bs data. induction fuel as [|fuel IH]; intros bs data Hbs Hfuel Hdata.
  - exists data. simpl. rewrite bool_decide_eq_false_2 by lia.
    split; [done|]. split; [done|]. apply (blocks_short bs); [done|lia].
  - cbn [stable_merge_rounds]. case_bool_decide as Hlt; cycle 1.
    { exists data. split; [done|]. split; [done|].
      apply (blocks_short bs); [done|lia]. }
    destruct (stable_merge_round_spec bs (length data) data Hbs eq_refl Hdata)
      as (data1 & Hround & Hperm & Hblocks).
    destruct (stable_merge_pairs elem_less (length data) bs (length data)
                0 (2 * bs) data) as [[a d]|]; [|done].
    cbn [mbind option_bind] in Hround |- *. rewrite Hround.
    cbn [mbind option_bind].
    rewrite <- (Permutation_length Hperm).
    destruct (IH (2 * bs)%nat data1) as (data' & -> & Hperm' & Hsorted);
      [lia|rewrite (Permutation_length Hperm); lia|done|].
    exists data'. split; [done|]. split; [|done]. by rewrite Hperm'.
Qed.

Lemma stable_func_spec (data : list A) :
  in_order data →
  ∃ data', stable_func elem_less (length data) data = Some data'
         ∧ data' ≡ₚ data ∧ sorted data'.
Proof.
  intros Horder. unfold stable_func.
  destruct (stable_blocks_spec (length data) 20 (length data) [] data 0 20)
    as (front & last & Hrun & Hperm & Hlast & Hlast_order & Hafter & Hblocks);
    [lia|done..|].
  cbn [app length Nat.add] in Hrun. rewrite Hrun. cbn [mbind option_bind].
  assert (length data = (length front + length last)%nat) as Hlen
    by (by rewrite <- Hperm, length_app).
  rewrite Hlen.
  destruct (insertionSort_func_spec front last [] (length front)
              (length front + length last)) as (t & Ht & Hpt & Hst);
    [done..|].
  rewrite !app_nil_r in Ht. rewrite Ht. cbn [mbind option_bind].
  assert (front ++ t ≡ₚ data) as Hperm1 by (by rewrite Hpt).
  replace (length front + length last)%nat with (length (front ++ t))
    by (rewrite length_app, Hpt; done).
  destruct (stable_merge_rounds_spec (length (front ++ t)) 20 (front ++ t))
    as (data' & -> & Hperm' & Hsorted); [lia|lia| |].
  { apply Hblocks; [apply blocks_last; [rewrite Hpt; lia|done]|].
    by apply (after_Permutation front front last t). }
  exists data'. split; [done|]. split; [|done]. by rewrite Hperm'.
Qed.

(** [sort.SliceStable] returns, with a permutation of the slice that is
    sorted in the order the answers of the closure stand for. *)
Lemma SliceStable_spec (x : list A) :
  in_order x →
  ∃ x', SliceStable elem_less x = Some x' ∧ x' ≡ₚ x ∧ sorted x'.
Proof. apply stable_func_spec. Qed.

End SliceStable_facts.

(** ** [strings.HasPrefix] *)

Lemma substring_0_append (p rest : string) :
  substring 0 (String.length p) (p ++ rest)%string = p.
Proof. induction p as [|c p IH]; simpl; [by destruct rest|by rewrite IH]. Qed.

Lemma string_length_append (p rest : string) :
  String.length (p ++ rest)%string = (String.length p + String.length rest)%nat.
Proof. induction p as [|c p IH]; simpl; [done|by rewrite IH]. Qed.

Lemma HasPrefix_append (p rest : string) : HasPrefix (p ++ rest)%string p = true.
Proof.
  unfold HasPrefix. rewrite substring_0_append, String.eqb_refl, andb_true_r.
  apply Nat.leb_le. rewrite string_length_append. lia.
Qed.

Lemma HasPrefix_inv (s p : string) :
  HasPrefix s p = true → ∃ rest, s = (p ++ rest)%string.
Proof.
  unfold HasPrefix. intros [Hlen Heq%String.eqb_eq]%andb_true_iff.
  apply Nat.leb_le in Hlen. clear Hlen. revert s Heq.
  induction p as [|c p IH]; intros s Heq; [by exists s|].
  destruct s as [|c' s]; [done|]. simpl in Heq. injection Heq as -> Heq.
  destruct (IH s Heq) as [rest ->]. by exists rest.
Qed.

Lemma HasPrefix_spec (s p : string) :
  HasPrefix s p = true ↔ ∃ rest, s = (p ++ rest)%string.
Proof.
  split; [apply HasPrefix_inv|]. intros [rest ->]. apply HasPrefix_append.
Qed.

Lemma HasPrefix_empty (s : string) : HasPrefix s "" = true.
Proof. apply HasPrefix_spec. by exists s. Qed.

(** ** [complete] *)

Global Instance by_count_desc_trans : Transitive by_count_desc.
Proof. unfold by_count_desc. intros x y z ??. lia. Qed.

Lemma count_not_less_true x y :
  count_not_less x y = true → by_count_desc x y.
Proof. unfold count_not_less, by_count_desc. destruct (Z.ltb_spec (Count x) (Count y)); [done|lia]. Qed.

Lemma count_not_less_false x y :
  count_not_less x y = false → by_count_desc y x.
Proof. unfold count_not_less, by_count_desc. destruct (Z.ltb_spec (Count x) (Count y)); [lia|done]. Qed.

(** The loop of [complete] keeps the entries that have the prefix, in the
    order of the scan. *)
Lemma collect_filter (prefix : string) (scan : list (string * Z)) :
  collect prefix scan =
  (λ e, mkWordCount e.1 e.2) <$> filter (λ e, HasPrefix e.1 prefix = true) scan.
Proof.
  unfold collect.
  assert (∀ acc,
    foldl (λ wordCounts '(word, count),
             if HasPrefix word prefix
             then wordCounts ++ [mkWordCount word count]
             else wordCounts) acc scan
    = acc ++ ((λ e, mkWordCount e.1 e.2)
              <$> filter (λ e, HasPrefix e.1 prefix = true) scan)) as Hacc.
  { induction scan as [|[word count] scan IH]; intros acc.
    - by rewrite app_nil_r.
    - cbn [foldl]. rewrite IH, filter_cons. simpl.
      destruct (HasPrefix word prefix) eqn:Hp.
      + rewrite decide_True by done. by rewrite <- (assoc_L (++)).
      + rewrite decide_False by done. done. }
  apply (Hacc []).
Qed.

Lemma collect_Permutation prefix scan1 scan2 :
  scan1 ≡ₚ scan2 → collect prefix scan1 ≡ₚ collect prefix scan2.
Proof. intros Hp. rewrite !collect_filter. by rewrite Hp. Qed.

Lemma elem_of_collect prefix scan x :
  x ∈ collect prefix scan ↔
  (Word x, Count x) ∈ scan ∧ HasPrefix (Word x) prefix = true.
Proof.
  rewrite collect_filter, list_elem_of_fmap. split.
  - intros ([w c] & -> & [Hp Hin]%list_elem_of_filter). done.
  - intros [Hin Hp]. exists (Word x, Count x). split; [by destruct x|].
    by apply list_elem_of_filter.
Qed.

(** [complete] returns: the sort gives a permutation of the collected
    entries in descending order of count, of which the words are
    returned. *)
Lemma complete_spec (prefix : string) (scan : list (string * Z)) :
  ∃ wordCounts,
    complete prefix scan = Some (Word <$> wordCounts)
    ∧ wordCounts ≡ₚ collect prefix scan
    ∧ StronglySorted by_count_desc wordCounts.
Proof.
  destruct (SliceStable_spec count_not_less by_count_desc (λ _ _, True)
              (λ x y _, count_not_less_true x y)
              (λ x y _, count_not_less_false x y) (collect prefix scan))
    as (ws & Hrun & Hperm & Hsorted).
  { induction (collect prefix scan); constructor; [done|].
    by apply Forall_forall. }
  exists ws. unfold complete. by rewrite Hrun.
Qed.

Lemma StronglySorted_lookup_lt {A} (R : relation A) (l : list A) i j x y :
  StronglySorted R l → (i < j)%nat → l !! i = Some x → l !! j = Some y → R x y.
Proof.
  intros Hl Hij Hi Hj.
  rewrite <- (take_drop_middle _ _ _ Hj) in Hl.
  apply StronglySorted_app in Hl as (Hcross & _ & _).
  apply Hcross; [|by left].
  apply elem_of_take. exists i. done.
Qed.

(** The entries that [complete] collects from a scan of the map are the
    entries of the map whose key has the prefix. *)
Lemma elem_of_collect_map (m : gmap string Z) prefix scan x :
  scan_of m scan →
  x ∈ collect prefix scan ↔
  m !! Word x = Some (Count x) ∧ HasPrefix (Word x) prefix = true.
Proof.
  intros Hscan. rewrite elem_of_collect. unfold scan_of in Hscan.
  by rewrite Hscan, elem_of_map_to_list.
Qed.

(** *** What becomes of equal counts *)

Lemma StronglySorted_lookup_2 {A} (R : relation A) (l : list A) :
  (∀ i j x y, (i < j)%nat → l !! i = Some x → l !! j = Some y → R x y) →
  StronglySorted R l.
Proof.
  induction l as [|a l IH]; intros Hl; constructor.
  - apply IH. intros i j x y Hij Hi Hj. by apply (Hl (S i) (S j)); [lia|..].
  - apply Forall_forall. intros y [j Hj]%list_elem_of_lookup_1.
    by apply (Hl 0%nat (S j)); [lia|..].
Qed.

Lemma stood_after_in_order {A} (l : list A) :
  StronglySorted (flip (stood_after l)) l.
Proof.
  apply StronglySorted_lookup_2. intros i j x y Hij Hi Hj. by exists j, i.
Qed.

Lemma stood_after_fmap {A B} (f : A → B) (l : list A) x y :
  stood_after (f <$> l) x y →
  ∃ x' y', x = f x' ∧ y = f y' ∧ stood_after l x' y'.
Proof.
  intros (i & j & Hij & Hi & Hj). rewrite list_lookup_fmap in Hi, Hj.
  apply fmap_Some in Hi as (x' & Hi & ->).
  apply fmap_Some in Hj as (y' & Hj & ->).
  exists x', y'. split; [done|]. split; [done|]. by exists i, j.
Qed.

Lemma stood_after_cons {A} (a : A) (l : list A) x y :
  stood_after l x y → stood_after (a :: l) x y.
Proof. intros (i & j & Hij & Hi & Hj). exists (S i), (S j). split; [lia|done]. Qed.

Lemma stood_after_filter {A} (P : A → Prop) `{∀ x, Decision (P x)}
    (l : list A) x y :
  stood_after (filter P l) x y → stood_after l x y.
Proof.
  induction l as [|a l IH]; intros (i & j & Hij & Hi & Hj); [done|].
  rewrite filter_cons in Hi, Hj. destruct (decide (P a)).
  - destruct j as [|j].
    + injection Hj as ->. destruct i as [|i]; [lia|]. simpl in Hi.
      apply list_elem_of_lookup_2, list_elem_of_filter in Hi as [_ Hx].
      apply list_elem_of_lookup_1 in Hx as [k Hk].
      exists (S k), 0%nat. split; [lia|done].
    + destruct i as [|i]; [lia|]. simpl in Hi, Hj.
      apply stood_after_cons, IH. exists i, j. split; [lia|done].
  - apply stood_after_cons, IH. by exists i, j.
Qed.

Lemma tie_order_trans (l : list WordCount) :
  NoDup l → Transitive (tie_order l).
Proof.
  intros Hl x y z [Hxy|[Hxy Hafter1]] [Hyz|[Hyz Hafter2]];
    unfold tie_order; [left; lia..|].
  right. split; [lia|].
  destruct Hafter1 as (i & j & Hij & Hi & Hj).
  destruct Hafter2 as (j' & k & Hjk & Hj' & Hk).
  assert (j = j') as <- by by eapply NoDup_lookup.
  exists i, k. split; [lia|done].
Qed.

Lemma NoDup_collect (prefix : string) (scan : list (string * Z)) :
  NoDup scan.*1 → NoDup (collect prefix scan).
Proof.
  intros Hscan. rewrite collect_filter.
  apply NoDup_fmap_2.
  - intros [w1 c1] [w2 c2] [= -> ->]. done.
  - apply NoDup_filter. by apply NoDup_fmap_1 in Hscan.
Qed.

(** With a scan that meets every key once, the result of [complete] is
    in [tie_order]: descending counts, and equal counts in the reverse
    of the order in which they were collected. *)
Lemma complete_tie_spec (prefix : string) (scan : list (string * Z)) :
  NoDup scan.*1 →
  ∃ wordCounts,
    complete prefix scan = Some (Word <$> wordCounts)
    ∧ wordCounts ≡ₚ collect prefix scan
    ∧ StronglySorted (tie_order (collect prefix scan)) wordCounts.
Proof.
  intros Hscan.
  destruct (SliceStable_spec count_not_less
              (tie_order (collect prefix scan))
              (Transitive0 := tie_order_trans _ (NoDup_collect prefix scan Hscan))
              (stood_after (collect prefix scan)))
    with (x := collect prefix scan) as (ws & Hrun & Hperm & Hsorted).
  - intros x y Hafter Hless%count_not_less_true.
    unfold tie_order, by_count_desc in *.
    destruct (decide (Count x = Count y)); [right|left; lia]. done.
  - intros x y Hafter Hless. unfold tie_order, count_not_less in *. left.
    by destruct (Z.ltb_spec (Count x) (Count y)).
  - apply stood_after_in_order.
  - exists ws. unfold complete. by rewrite Hrun.
Qed.

(** X12: for every map and every order in which the scan visits it: of
    two returned tokens with the same count, the one that comes first in
    the result was met later in the scan. *)
Lemma complete_ties_in_reverse_scan_order (m : gmap string Z)
    (prefix : string) (scan : list (string * Z)) (result : list string)
    (i j : nat) (ti tj : string) (c : Z) :
  scan_of m scan → complete prefix scan = Some result →
  (i < j)%nat → result !! i = Some ti → result !! j = Some tj →
  m !! ti = Some c → m !! tj = Some c →
  stood_after scan (ti, c) (tj, c).
Proof.
  intros Hscan Hrun Hij Hi Hj Hci Hcj.
  assert (NoDup scan.*1) as Hnodup.
  { unfold scan_of in Hscan. rewrite Hscan. apply NoDup_fst_map_to_list. }
  destruct (complete_tie_spec prefix scan Hnodup) as (ws & Hrun' & Hperm & Hs).
  rewrite Hrun' in Hrun. injection Hrun as <-.
  rewrite list_lookup_fmap in Hi, Hj.
  apply fmap_Some in Hi as (xi & Hxi & ->).
  apply fmap_Some in Hj as (xj & Hxj & ->).
  assert (∀ x, x ∈ ws → m !! Word x = Some (Count x)) as Hcount.
  { intros x Hx. rewrite Hperm in Hx.
    by apply (elem_of_collect_map m) in Hx as [? _]. }
  pose proof (Hcount _ (list_elem_of_lookup_2 _ _ _ Hxi)) as Hci'.
  pose proof (Hcount _ (list_elem_of_lookup_2 _ _ _ Hxj)) as Hcj'.
  assert (Count xi = c) as Hxi_c by congruence.
  assert (Count xj = c) as Hxj_c by congruence.
  destruct (StronglySorted_lookup_lt _ ws i j xi xj Hs Hij Hxi Hxj)
    as [?|[_ Hafter]]; [lia|].
  rewrite collect_filter in Hafter.
  apply stood_after_fmap in Hafter as ([w1 c1] & [w2 c2] & -> & -> & Hafter).
  apply stood_after_filter in Hafter. simpl in *. by subst.
Qed.

Lemma Complete_spec (scan : list (string * Z)) (prefix : string) (n : Z) :
  0 ≤ n →
  ∃ wordCounts,
    complete prefix scan = Some (Word <$> wordCounts)
    ∧ Complete scan prefix n = Some (Word <$> take (Z.to_nat n) wordCounts)
    ∧ wordCounts ≡ₚ collect prefix scan
    ∧ StronglySorted by_count_desc wordCounts.
Proof.
  intros Hn. destruct (complete_spec prefix scan) as (ws & Hrun & Hperm & Hs).
  exists ws. split; [done|]. split; [|done].
  unfold Complete. rewrite Hrun, firstN_nonneg by done. by rewrite fmap_take.
Qed.

(** C5: every token that [Complete] returns starts with the prefix, byte
    for byte, and is a key of the map; the empty prefix is a prefix of
    every token, so with it every key of the map is among the matches;
    and when no key has the prefix the result is the empty sequence, not
    a failure. *)
Theorem Complete_sound (m : gmap string Z) (scan : list (string * Z))
    (prefix : string) (n : Z) :
  scan_of m scan → 0 ≤ n →
  ∃ result,
    Complete scan prefix n = Some result
    ∧ (∀ t, t ∈ result →
         HasPrefix t prefix = true
         ∧ (∃ rest, t = (prefix ++ rest)%string)
         ∧ is_Some (m !! t))
    ∧ (∀ t, HasPrefix t "" = true)
    ∧ (∀ all, complete "" scan = Some all → ∀ t, is_Some (m !! t) → t ∈ all)
    ∧ ((∀ t, is_Some (m !! t) → HasPrefix t prefix = false) → result = []).
Proof.
  intros Hscan Hn.
  destruct (Complete_spec scan prefix n Hn) as (ws & Hc & -> & Hperm & Hs).
  eexists. split; [done|]. split; [|split; [|split]].
  - intros t (x & -> & Hx%elem_of_take)%list_elem_of_fmap.
    destruct Hx as (i & Hx%list_elem_of_lookup_2 & _).
    rewrite Hperm in Hx. apply (elem_of_collect_map m) in Hx as [Hm Hp]; [|done].
    split; [done|]. split; [by apply HasPrefix_inv|by eexists].
  - apply HasPrefix_empty.
  - intros all Hall t [c Ht].
    destruct (complete_spec "" scan) as (ws' & Hc' & Hperm' & _).
    rewrite Hc' in Hall. injection Hall as <-.
    apply list_elem_of_fmap. exists (mkWordCount t c). split; [done|].
    rewrite Hperm'. apply (elem_of_collect_map m); [done|]. simpl.
    split; [done|apply HasPrefix_empty].
  - intros Hnone.
    assert (ws = []) as ->; [|by rewrite take_nil].
    destruct ws as [|x ws]; [done|]. exfalso.
    assert (x ∈ collect prefix scan) as Hx by (rewrite <- Hperm; by left).
    apply (elem_of_collect_map m) in Hx as [Hm Hp]; [|done].
    rewrite Hnone in Hp by by eexists. done.
Qed.

(** C4: for a limit [n >= 0] the returned sequence is in descending order
    of count; a token of the map that has the prefix and a count strictly
    greater than that of some returned token is itself returned; and a
    token that has the prefix is left out only when the result has been
    cut to [n] entries. *)
Theorem Complete_ranked (m : gmap string Z) (scan : list (string * Z))
    (prefix : string) (n : Z) :
  scan_of m scan → 0 ≤ n →
  ∃ result,
    Complete scan prefix n = Some result
    ∧ (∀ i j ti tj ci cj,
         (i ≤ j)%nat → result !! i = Some ti → result !! j = Some tj →
         m !! ti = Some ci → m !! tj = Some cj → cj ≤ ci)
    ∧ (∀ t c r c',
         m !! t = Some c → HasPrefix t prefix = true →
         r ∈ result → m !! r = Some c' → c' < c → t ∈ result)
    ∧ (∀ t, is_Some (m !! t) → HasPrefix t prefix = true →
            t ∉ result → Z.of_nat (length result) = n).
Proof.
  intros Hscan Hn.
  destruct (Complete_spec scan prefix n Hn) as (ws & Hc & -> & Hperm & Hs).
  eexists. split; [done|].
  assert (∀ x, x ∈ ws → m !! Word x = Some (Count x)) as Hcount.
  { intros x Hx. rewrite Hperm in Hx.
    by apply (elem_of_collect_map m) in Hx as [? _]. }
  assert (∀ i t c, (Word <$> take (Z.to_nat n) ws) !! i = Some t →
            m !! t = Some c →
            ∃ x, ws !! i = Some x ∧ (i < Z.to_nat n)%nat
                 ∧ Word x = t ∧ Count x = c) as Hentry.
  { intros i t c Hi Ht. rewrite list_lookup_fmap in Hi.
    apply fmap_Some in Hi as (x & Hx & ->).
    apply lookup_take_Some in Hx as [Hx Hlt].
    exists x. repeat split; [done..|].
    apply list_elem_of_lookup_2, Hcount in Hx. congruence. }
  split; [|split].
  - intros i j ti tj ci cj Hij Hi Hj Hci Hcj.
    destruct (Hentry _ _ _ Hi Hci) as (xi & Hxi & _ & _ & <-).
    destruct (Hentry _ _ _ Hj Hcj) as (xj & Hxj & _ & _ & <-).
    destruct (decide (i = j)) as [->|Hne]; [|].
    + rewrite Hxi in Hxj. injection Hxj as ->. lia.
    + apply (StronglySorted_lookup_lt by_count_desc ws i j xi xj);
        [done|lia|done..].
  - intros t c r c' Ht Hp Hr Hc' Hlt.
    assert (mkWordCount t c ∈ ws) as Hin.
    { rewrite Hperm. by apply (elem_of_collect_map m). }
    apply list_elem_of_lookup_1 in Hin as [k Hk].
    apply list_elem_of_lookup_1 in Hr as [i Hi].
    destruct (Hentry _ _ _ Hi Hc') as (xi & Hxi & Hin & _ & <-).
    destruct (decide (k < Z.to_nat n)%nat) as [Hkn|Hkn].
    + apply (list_elem_of_lookup_2 _ k). rewrite list_lookup_fmap.
      rewrite lookup_take_lt by done. by rewrite Hk.
    + exfalso.
      pose proof (StronglySorted_lookup_lt by_count_desc ws i k xi
                    (mkWordCount t c) Hs) as Hord.
      unfold by_count_desc in Hord. simpl in Hord.
      specialize (Hord ltac:(lia) Hxi Hk). lia.
  - intros t [c Ht] Hp Hnot.
    assert (mkWordCount t c ∈ ws) as Hin.
    { rewrite Hperm. by apply (elem_of_collect_map m). }
    apply list_elem_of_lookup_1 in Hin as [k Hk].
    rewrite length_fmap, length_take.
    destruct (decide (k < Z.to_nat n)%nat) as [Hkn|Hkn].
    + exfalso. apply Hnot. apply (list_elem_of_lookup_2 _ k).
      rewrite list_lookup_fmap, lookup_take_lt by done. by rewrite Hk.
    + apply lookup_lt_Some in Hk. lia.
Qed.

Lemma scan_of_list_to_map (l : list (string * Z)) :
  NoDup l.*1 → scan_of (list_to_map l) l.
Proof. intros Hl. unfold scan_of. symmetry. by apply map_to_list_to_map. Qed.

Lemma Complete_ranked_witness :
  ∃ result,
    Complete example_scan "" 2 = Some result
    ∧ (∀ i j ti tj ci cj,
         (i ≤ j)%nat → result !! i = Some ti → result !! j = Some tj →
         example_index !! ti = Some ci → example_index !! tj = Some cj →
         cj ≤ ci)
    ∧ (∀ t c r c',
         example_index !! t = Some c → HasPrefix t "" = true →
         r ∈ result → example_index !! r = Some c' → c' < c → t ∈ result)
    ∧ (∀ t, is_Some (example_index !! t) → HasPrefix t "" = true →
            t ∉ result → Z.of_nat (length result) = 2).
Proof.
  apply (Complete_ranked example_index example_scan "" 2).
  - unfold scan_of, example_index. symmetry. apply map_to_list_to_map.
    apply (bool_decide_unpack _). vm_compute. reflexivity.
  - lia.
Defined.

Lemma Complete_sound_witness :
  ∃ result,
    Complete example_scan "ca" 5 = Some result
    ∧ (∀ t, t ∈ result →
         HasPrefix t "ca" = true
         ∧ (∃ rest, t = ("ca" ++ rest)%string)
         ∧ is_Some (example_index !! t))
    ∧ (∀ t, HasPrefix t "" = true)
    ∧ (∀ all, complete "" example_scan = Some all →
              ∀ t, is_Some (example_index !! t) → t ∈ all)
    ∧ ((∀ t, is_Some (example_index !! t) → HasPrefix t "ca" = false) →
       result = []).
Proof.
  apply (Complete_sound example_index example_scan "ca" 5).
  - unfold scan_of, example_index. symmetry. apply map_to_list_to_map.
    apply (bool_decide_unpack _). vm_compute. reflexivity.
  - lia.
Defined.

(** The scenarios of the corpus [the cat sat on the mat the cat ran]. *)
Example Complete_scenarios :
  map_to_list (countWords (parseText "the cat sat on the mat the cat ran"))
    ≡ₚ example_scan
  ∧ Complete example_scan "ca" 5 = Some ["cat"]
  ∧ Complete example_scan "t" 5 = Some ["the"]
  ∧ Complete example_scan "" 2 = Some ["the"; "cat"]
  ∧ Complete example_scan "xyz" 10 = Some [].
Proof.
  split; [|by vm_compute].
  transitivity (map_to_list example_index); [by vm_compute|].
  symmetry. apply scan_of_list_to_map.
  apply (bool_decide_unpack _). by vm_compute.
Qed.

(** C2, as stated, fails: the two orders in which a [range] loop may
    visit the map [{a:1, b:1}] give two different results. *)
Lemma complete_depends_on_scan_order :
  scan_of tie_index [("a", 1); ("b", 1)]
  ∧ scan_of tie_index [("b", 1); ("a", 1)]
  ∧ complete "" [("a", 1); ("b", 1)] = Some ["b"; "a"]
  ∧ complete "" [("b", 1); ("a", 1)] = Some ["a"; "b"]
  ∧ complete "" [("a", 1); ("b", 1)] ≠ complete "" [("b", 1); ("a", 1)].
Proof.
  assert (scan_of tie_index tie_scan) as Hscan.
  { apply scan_of_list_to_map. apply (bool_decide_unpack _). by vm_compute. }
  split; [done|]. split.
  - unfold scan_of in *. rewrite <- Hscan. apply perm_swap.
  - by vm_compute.
Qed.

(** C2, amended: when no two keys of the map that have the prefix have
    the same count, [complete] returns the same sequence whatever the
    orders in which the two calls visit the map. *)
Theorem complete_deterministic_without_ties (m : gmap string Z)
    (prefix : string) (scan1 scan2 : list (string * Z)) :
  scan_of m scan1 → scan_of m scan2 →
  (∀ t1 t2 c, m !! t1 = Some c → m !! t2 = Some c →
              HasPrefix t1 prefix = true → HasPrefix t2 prefix = true →
              t1 = t2) →
  ∃ result, complete prefix scan1 = Some result
          ∧ complete prefix scan2 = Some result.
Proof.
  intros Hscan1 Hscan2 Hties.
  destruct (complete_spec prefix scan1) as (ws1 & -> & Hperm1 & Hs1).
  destruct (complete_spec prefix scan2) as (ws2 & -> & Hperm2 & Hs2).
  exists (Word <$> ws1). split; [done|]. do 2 f_equal.
  symmetry. apply (StronglySorted_unique_strong by_count_desc); [|done..|].
  - intros x1 x2 Hx1 Hx2 H12 H21. unfold by_count_desc in *.
    rewrite Hperm1 in Hx1. rewrite Hperm2 in Hx2.
    apply (elem_of_collect_map m) in Hx1 as [Hm1 Hp1]; [|done].
    apply (elem_of_collect_map m) in Hx2 as [Hm2 Hp2]; [|done].
    assert (Count x1 = Count x2) as Hc by lia. rewrite Hc in Hm1.
    pose proof (Hties _ _ _ Hm1 Hm2 Hp1 Hp2) as Hw.
    destruct x1, x2. simpl in *. congruence.
  - rewrite Hperm1, Hperm2. apply collect_Permutation.
    unfold scan_of in *. by rewrite Hscan1, Hscan2.
Qed.

Lemma complete_deterministic_without_ties_witness :
  ∃ result,
    complete "" [("the", 3); ("cat", 2)] = Some result
    ∧ complete "" [("cat", 2); ("the", 3)] = Some result.
Proof.
  apply (complete_deterministic_without_ties
           (list_to_map [("the", 3); ("cat", 2)])).
  - unfold scan_of. symmetry. apply map_to_list_to_map.
    apply (bool_decide_unpack _). vm_compute. reflexivity.
  - unfold scan_of. rewrite (perm_swap ("the", 3) ("cat", 2) []).
    symmetry. apply map_to_list_to_map.
    apply (bool_decide_unpack _). vm_compute. reflexivity.
  - intros t1 t2 c H1 H2 _ _.
    apply elem_of_list_to_map_2 in H1, H2.
    rewrite !elem_of_cons in H1, H2.
    destruct H1 as [?|[?|?%elem_of_nil]], H2 as [?|[?|?%elem_of_nil]];
      by simplify_eq.
Defined.

(** C3 fails on the code: of two tokens with equal counts the one met
    later in the scan comes first in the result, because the closure
    given to the stable sort answers [true] for equal counts and the
    insertion sort then swaps them ([complete_ties_in_reverse_scan_order]
    has it for every map and scan). *)
Theorem complete_reverses_ties :
  collect "" [("a", 1); ("b", 1)] = [mkWordCount "a" 1; mkWordCount "b" 1]
  ∧ count_not_less (mkWordCount "b" 1) (mkWordCount "a" 1) = true
  ∧ complete "" [("a", 1); ("b", 1)] = Some ["b"; "a"]
  ∧ complete "" [("b", 1); ("a", 1)] = Some ["a"; "b"]
  ∧ complete "" [("x", 5); ("on", 1); ("sat", 1); ("mat", 1)]
    = Some ["x"; "mat"; "sat"; "on"].
Proof. by vm_compute. Qed.

(** ** [respond] *)

(** C9, as stated, fails: a request whose request URI [url.Parse] does
    not accept makes the handler panic before it validates anything, so
    a request that is not a GET gets no client-error response.  The
    server parses the request line with [url.ParseRequestURI], which
    knows no fragment; [POST /x?a=b#%zz] passes it and fails in
    [url.Parse] on the escape of the fragment. *)
Lemma respond_panics_on_unparsed_uri :
  let r := mkRequest "POST" None "" in
  Method r ≠ "GET"
  ∧ respond json_quote example_scan r = None
  ∧ respond json_quote example_scan r
    ≠ Some (mkResponse "application/json" StatusBadRequest
              (message_body "Unsupported request")).
Proof. by vm_compute. Qed.

(** C9, amended: for every request whose request URI [url.Parse]
    accepts, the handler answers with status 400 and the body
    [{"message": "Unsupported request"}] when the method is not GET, the
    parsed path is not [/autocomplete] or the term is empty; otherwise it
    answers with status 200 and the body [{"matches":] array [}], where
    the array renders, in order, the at most 25 tokens that [complete]
    and [firstN] return for the term.  The content type is JSON either
    way. *)
Theorem respond_contract (json_string : string → string)
    (scan : list (string * Z)) (r : Request) (url : URL) :
  RequestURI_parsed r = Some url →
  (Method r ≠ "GET" ∨ Path url ≠ "/autocomplete" ∨ Query_term r = "" →
   respond json_string scan r
   = Some (mkResponse "application/json" StatusBadRequest
             (message_body "Unsupported request")))
  ∧ (Method r = "GET" → Path url = "/autocomplete" → Query_term r ≠ "" →
     ∃ top25,
       Complete scan (Query_term r) 25 = Some top25
       ∧ (length top25 ≤ 25)%nat
       ∧ respond json_string scan r
         = Some (mkResponse "application/json" StatusOK
                   (matches_body
                      ("[" ++ String.concat "," (json_string <$> top25) ++ "]")%string)))
  ∧ 400 ≤ StatusBadRequest < 500 ∧ StatusOK = 200.
Proof.
  intros Hurl. unfold respond. rewrite Hurl. split; [|split; [|done]].
  - intros Hbad.
    destruct (String.eqb_spec (Method r) "GET") as [Hm|Hm]; simpl; [|done].
    destruct (String.eqb_spec (Path url) "/autocomplete") as [Hp|Hp]; simpl;
      [|done].
    destruct (String.eqb_spec (Query_term r) "") as [Ht|Ht]; simpl; [done|].
    by destruct Hbad as [?|[?|?]].
  - intros Hm Hp Ht.
    rewrite (proj2 (String.eqb_eq _ _) Hm), (proj2 (String.eqb_eq _ _) Hp).
    rewrite (proj2 (String.eqb_neq _ _) Ht). simpl.
    destruct (Complete_spec scan (Query_term r) 25) as (ws & Hc & HC & _);
      [lia|].
    unfold Complete in HC. rewrite Hc in HC |- *. rewrite HC.
    eexists. split; [unfold Complete; by rewrite Hc|]. split; [|done].
    rewrite length_fmap, length_take. lia.
Qed.

Lemma respond_contract_witness :
  let r := mkRequest "GET" (Some (mkURL "/autocomplete")) "ca" in
  (Method r ≠ "GET" ∨ Path (mkURL "/autocomplete") ≠ "/autocomplete"
   ∨ Query_term r = "" →
   respond json_quote example_scan r
   = Some (mkResponse "application/json" StatusBadRequest
             (message_body "Unsupported request")))
  ∧ (Method r = "GET" → Path (mkURL "/autocomplete") = "/autocomplete" →
     Query_term r ≠ "" →
     ∃ top25,
       Complete example_scan (Query_term r) 25 = Some top25
       ∧ (length top25 ≤ 25)%nat
       ∧ respond json_quote example_scan r
         = Some (mkResponse "application/json" StatusOK
                   (matches_body
                      ("[" ++ String.concat "," (json_quote <$> top25) ++ "]")%string)))
  ∧ 400 ≤ StatusBadRequest < 500 ∧ StatusOK = 200.
Proof.
  apply (respond_contract json_quote example_scan
           (mkRequest "GET" (Some (mkURL "/autocomplete")) "ca")
           (mkURL "/autocomplete")).
  reflexivity.
Defined.

Example respond_example :
  respond json_quote example_scan
    (mkRequest "GET" (Some (mkURL "/autocomplete")) "ca")
  = Some (mkResponse "application/json" 200
            (matches_body ("[" ++ dquote ++ "cat" ++ dquote ++ "]")%string))
  ∧ respond json_quote example_scan
      (mkRequest "GET" (Some (mkURL "/autocomplete")) "xyz")
    = Some (mkResponse "application/json" 200 (matches_body "[]")).
Proof. by vm_compute. Qed.

(** ** [parseFile] *)

Example parseText_dog :
  parseText "The Dog, the DOG!" = ["the"; "dog"; "the"; "dog"].
Proof. reflexivity. Qed.

(** C1 fails on the code: [Split] returns an empty first string when the
    text begins with white space, an empty last string when it ends with
    white space, and the one empty string for an empty text; none is
    dropped, and [countWords] counts them.  Only the runs between two
    words are swallowed by the [\s+] of the expression. *)
Theorem parseText_keeps_empty_strings :
  parseText "" = [""]
  ∧ parseText "?!" = [""]
  ∧ parseText " the cat" = [""; "the"; "cat"]
  ∧ parseText "the cat " = ["the"; "cat"; ""]
  ∧ parseText "the   cat" = ["the"; "cat"]
  ∧ parseText " " = [""; ""]
  ∧ countWords (parseText "the cat ") !! "" = Some 1
  ∧ countWords (parseText "") !! "" = Some 1.
Proof. by vm_compute. Qed.


(** * Further properties *)

(** ** The tokenizer, by recursion on the text *)

Lemma substring_zero_length (n : nat) (s : string) : substring n 0 s = "".
Proof. revert n. induction s as [|c s IH]; intros [|n]; simpl; auto. Qed.

Lemma substring_skip (p s : string) (n : nat) :
  substring (String.length p) n (p ++ s)%string = substring 0 n s.
Proof. induction p as [|c p IH]; simpl; [done|apply IH]. Qed.

Lemma substring_middle (p tok rest : string) :
  substring (String.length p) (String.length tok) (p ++ tok ++ rest)%string
  = tok.
Proof. by rewrite substring_skip, substring_0_append. Qed.

Lemma append_cons (x : ascii) (a b : string) :
  (String x a ++ b)%string = String x (a ++ b)%string.
Proof. reflexivity. Qed.

Lemma append_nil_l (b : string) : ("" ++ b)%string = b.
Proof. reflexivity. Qed.

Lemma string_app_assoc (a b c : string) :
  ((a ++ b) ++ c = a ++ b ++ c)%string.
Proof.
  induction a as [|x a IH]; [done|]. by rewrite !append_cons, IH.
Qed.

Lemma string_app_nil_r (a : string) : (a ++ "")%string = a.
Proof. induction a as [|x a IH]; [done|]. by rewrite append_cons, IH. Qed.

Lemma substring_all (s : string) : substring 0 (String.length s) s = s.
Proof. induction s as [|c s IH]; simpl; [done|by rewrite IH]. Qed.

Lemma substring_suffix (p tok : string) :
  substring (String.length p) (String.length tok) (p ++ tok)%string = tok.
Proof. by rewrite substring_skip, substring_all. Qed.

(** The loop of [Split] over the matches found in the rest [s] of the
    text computes the pieces of [s]: outside a run of white space, with
    the piece [tok] begun at index [beg], and inside the run [ws] that
    ended the piece [tok]. *)
Lemma Split_loop_fields (s : string) :
  (∀ p0 tok strings end_ t,
     t = (p0 ++ tok ++ s)%string → (end_ < String.length t)%nat →
     Split_loop t
       (whitespace_runs s (String.length p0 + String.length tok) None)
       (String.length p0) end_ strings
     = strings ++ fields_from s tok false)
  ∧ (∀ p0 tok ws strings end_ t,
       t = (p0 ++ tok ++ ws ++ s)%string → ws ≠ "" →
       (end_ < String.length t)%nat →
       Split_loop t
         (whitespace_runs s
            (String.length p0 + String.length tok + String.length ws)
            (Some (String.length p0 + String.length tok)%nat))
         (String.length p0) end_ strings
       = strings ++ tok :: fields_from s "" true).
Proof.
  induction s as [|c s [IHout IHin]]; split.
  - intros p0 tok strings end_ t -> Hend. cbn [whitespace_runs Split_loop fields_from].
    rewrite (proj2 (Nat.eqb_neq _ _)) by lia.
    rewrite string_app_nil_r, string_length_append.
    replace (String.length p0 + String.length tok - String.length p0)%nat
      with (String.length tok) by lia.
    by rewrite substring_suffix.
  - intros p0 tok ws strings end_ t -> Hws Hend.
    cbn [whitespace_runs Split_loop fields_from].
    assert (0 < String.length ws)%nat by (destruct ws; [done|simpl; lia]).
    rewrite (proj2 (Nat.eqb_neq _ 0%nat)) by lia.
    rewrite !string_length_append in *. simpl String.length.
    rewrite (proj2 (Nat.eqb_neq _ _)) by lia.
    replace (String.length p0 + String.length tok - String.length p0)%nat
      with (String.length tok) by lia.
    rewrite substring_middle.
    replace (String.length p0 + (String.length tok + (String.length ws + 0))
             - (String.length p0 + String.length tok + String.length ws))%nat
      with 0%nat by lia.
    rewrite substring_zero_length. by rewrite <- (assoc_L (++)).
  - intros p0 tok strings end_ t -> Hend. cbn [whitespace_runs fields_from].
    destruct (is_space c) eqn:Hc.
    + cbn [default].
      replace (S (String.length p0 + String.length tok))
        with (String.length p0 + String.length tok
              + String.length (String c ""))%nat by (simpl; lia).
      by apply IHin.
    + replace (S (String.length p0 + String.length tok))
        with (String.length p0 + String.length (tok ++ String c "")%string)%nat
        by (rewrite string_length_append; simpl; lia).
      apply IHout; [|done]. by rewrite string_app_assoc.
  - intros p0 tok ws strings end_ t -> Hws Hend.
    cbn [whitespace_runs fields_from].
    assert (0 < String.length ws)%nat by (destruct ws; [done|simpl; lia]).
    destruct (is_space c) eqn:Hc.
    + cbn [default].
      replace (S (String.length p0 + String.length tok + String.length ws))
        with (String.length p0 + String.length tok
              + String.length (ws ++ String c "")%string)%nat
        by (rewrite string_length_append; simpl; lia).
      apply IHin; [by rewrite string_app_assoc|by destruct ws|done].
    + cbn [Split_loop].
      rewrite (proj2 (Nat.eqb_neq _ 0%nat)) by lia.
      replace (String.length p0 + String.length tok - String.length p0)%nat
        with (String.length tok) by lia.
      rewrite substring_middle.
      replace (S (String.length p0 + String.length tok + String.length ws))
        with (String.length (p0 ++ tok ++ ws)%string
              + String.length (String c ""))%nat
        by (rewrite !string_length_append; simpl; lia).
      replace (String.length p0 + String.length tok + String.length ws)%nat
        with (String.length (p0 ++ tok ++ ws)%string)
        by (rewrite !string_length_append; lia).
      rewrite (IHout (p0 ++ tok ++ ws)%string (String c "")).
      * by rewrite <- (assoc_L (++)).
      * by rewrite !string_app_assoc.
      * rewrite !string_length_append. simpl. lia.
Qed.

Lemma Split_fields (s : string) : Split s = fields s.
Proof.
  unfold Split, fields. destruct s as [|c s]; [done|].
  simpl Nat.eqb. cbv iota.
  destruct (Split_loop_fields (String c s)) as [Hout _].
  apply (Hout "" "" [] 0%nat (String c s)); [done|simpl; lia].
Qed.

Lemma parseText_fields (text : string) :
  parseText text = fields (ToLower (removeNonAlphabetic text)).
Proof. apply Split_fields. Qed.

(** ** Facts on single characters *)

Lemma lower_ascii_space (c : ascii) : is_space (lower_ascii c) = is_space c.
Proof. by destruct c as [[] [] [] [] [] [] [] []]. Qed.

Lemma lower_ascii_alpha (c : ascii) : is_alpha (lower_ascii c) = is_alpha c.
Proof. by destruct c as [[] [] [] [] [] [] [] []]. Qed.

Lemma lower_ascii_idemp (c : ascii) :
  lower_ascii (lower_ascii c) = lower_ascii c.
Proof. by destruct c as [[] [] [] [] [] [] [] []]. Qed.

Lemma lower_ascii_lower (c : ascii) :
  is_alpha c = true → is_lower (lower_ascii c) = true.
Proof. by destruct c as [[] [] [] [] [] [] [] []]. Qed.

Lemma lower_ascii_fixed (c : ascii) :
  is_lower c || is_space c = true → lower_ascii c = c.
Proof. by destruct c as [[] [] [] [] [] [] [] []]. Qed.

Lemma alpha_not_space (c : ascii) : is_alpha c = true → is_space c = false.
Proof. by destruct c as [[] [] [] [] [] [] [] []]. Qed.

Lemma lower_is_alpha (c : ascii) : is_lower c = true → is_alpha c = true.
Proof. by destruct c as [[] [] [] [] [] [] [] []]. Qed.

(** ** What the tokenizer returns *)

Lemma string_forall_append (p : ascii → bool) (a b : string) :
  string_forall p (a ++ b)%string = string_forall p a && string_forall p b.
Proof.
  induction a as [|c a IH]; [done|].
  rewrite append_cons. simpl. by rewrite IH, andb_assoc.
Qed.

Lemma fields_from_forall (p : ascii → bool) (s tok : string) (in_run : bool) :
  string_forall (λ c, is_space c || p c) s = true →
  string_forall p tok = true →
  ∀ t, t ∈ fields_from s tok in_run → string_forall p t = true.
Proof.
  revert tok in_run.
  induction s as [|c s IH]; intros tok in_run Hs Htok t; simpl in *.
  - by intros ->%list_elem_of_singleton.
  - apply andb_true_iff in Hs as [Hc Hs].
    destruct (is_space c) eqn:Hsp.
    + destruct in_run; [by apply IH|].
      intros [->|Ht]%elem_of_cons; [done|]. by apply (IH "" true).
    + apply IH; [done|].
      rewrite string_forall_append, Htok. simpl in *. by rewrite Hc.
Qed.

Lemma filtered_lowered_chars (text : string) :
  string_forall (λ c, is_space c || is_lower c)
    (ToLower (removeNonAlphabetic text)) = true.
Proof.
  unfold ToLower, removeNonAlphabetic.
  induction text as [|c text IH]; [done|]. simpl.
  destruct (is_alpha c) eqn:Ha; simpl.
  - rewrite IH, lower_ascii_lower by done. by rewrite orb_true_r.
  - destruct (is_space c) eqn:Hs; simpl; [|done].
    by rewrite IH, lower_ascii_space, Hs.
Qed.

(** X1: every character of every token is one of the letters a to z. *)
Theorem parseText_tokens_lowercase (text token : string) :
  token ∈ parseText text → string_forall is_lower token = true.
Proof.
  rewrite parseText_fields. apply fields_from_forall; [|done].
  apply filtered_lowered_chars.
Qed.

Lemma parseText_tokens_lowercase_witness :
  string_forall is_lower "dog" = true.
Proof.
  apply (parseText_tokens_lowercase "The Dog, the DOG!" "dog").
  vm_compute. apply elem_of_cons. right. apply elem_of_cons. by left.
Defined.

Lemma concat_empty_cons (x : string) (l : list string) :
  String.concat "" (x :: l) = (x ++ String.concat "" l)%string.
Proof. destruct l; simpl; [by rewrite string_app_nil_r|done]. Qed.

Lemma fields_from_concat (s tok : string) (in_run : bool) :
  String.concat "" (fields_from s tok in_run)
  = (tok ++ string_filter (λ c, negb (is_space c)) s)%string.
Proof.
  revert tok in_run. induction s as [|c s IH]; intros tok in_run.
  - simpl. by rewrite string_app_nil_r.
  - cbn [fields_from string_filter]. destruct (is_space c); simpl negb; cbv iota.
    + destruct in_run; [apply IH|].
      by rewrite concat_empty_cons, IH.
    + by rewrite IH, string_app_assoc.
Qed.

(** X2: the tokenizer loses and adds no letter: the tokens, one after the
    other, spell the letters of the text, in lower case and in their
    order. *)
Theorem parseText_keeps_letters (text : string) :
  String.concat "" (parseText text) = ToLower (string_filter is_alpha text).
Proof.
  rewrite parseText_fields. unfold fields. rewrite fields_from_concat.
  rewrite append_nil_l. unfold ToLower, removeNonAlphabetic.
  induction text as [|c text IH]; [done|]. simpl.
  destruct (is_alpha c) eqn:Ha; simpl.
  - rewrite lower_ascii_space, (alpha_not_space c Ha). simpl. by rewrite IH.
  - destruct (is_space c) eqn:Hs; simpl; [|done].
    by rewrite lower_ascii_space, Hs.
Qed.

Lemma fields_from_interior (s : string) :
  (∀ tok i, tok ≠ "" → (S i < length (fields_from s tok false))%nat →
            fields_from s tok false !! i ≠ Some "")
  ∧ (∀ i, (S i < length (fields_from s "" true))%nat →
          fields_from s "" true !! i ≠ Some "").
Proof.
  induction s as [|c s [IHout IHin]]; split.
  - intros tok i _ Hi. simpl in Hi. lia.
  - intros i Hi. simpl in Hi. lia.
  - intros tok i Htok Hi. cbn [fields_from] in *. destruct (is_space c).
    + destruct i as [|i]; simpl in *; [congruence|]. apply IHin. lia.
    + apply IHout; [|done]. by destruct tok.
  - intros i Hi. cbn [fields_from] in *. destruct (is_space c).
    + by apply IHin.
    + by apply IHout.
Qed.

(** X3: an empty string can only be the first or the last of the tokens:
    between two tokens that are kept there is always a word. *)
Theorem parseText_empty_only_at_ends (text : string) (i : nat) :
  parseText text !! i = Some "" →
  i = 0%nat ∨ S i = length (parseText text).
Proof.
  rewrite parseText_fields. unfold fields.
  generalize (ToLower (removeNonAlphabetic text)). intros s Hi.
  destruct (decide (i = 0%nat)) as [|Hne]; [by left|right].
  pose proof (lookup_lt_Some _ _ _ Hi) as Hlt.
  destruct (decide (S i = length (fields_from s "" false))) as [|Hlast];
    [done|exfalso].
  destruct s as [|c s]; [cbn [fields_from length] in *; lia|].
  destruct (fields_from_interior s) as [Hout Hin].
  cbn [fields_from] in *. destruct (is_space c).
  - destruct i as [|i]; [done|]. cbn [length lookup list_lookup] in *.
    apply (Hin i); [lia|done].
  - rewrite append_nil_l in *. apply (Hout (String c "") i); [done|lia|done].
Qed.

Lemma parseText_empty_only_at_ends_witness :
  2%nat = 0%nat ∨ 3%nat = length (parseText "the cat ").
Proof. apply (parseText_empty_only_at_ends "the cat " 2). reflexivity. Defined.

Lemma ends_with_space_cons (c : ascii) (s : string) :
  ends_with_space (String c s)
  = if decide (s = "") then is_space c else ends_with_space s.
Proof. by destruct s. Qed.

Lemma fields_from_empty_elem (s : string) :
  (∀ tok, tok ≠ "" →
     "" ∈ fields_from s tok false ↔ ends_with_space s = true)
  ∧ ("" ∈ fields_from s "" true ↔ s = "" ∨ ends_with_space s = true).
Proof.
  induction s as [|c s [IHout IHin]]; split.
  - intros tok Htok. simpl. rewrite list_elem_of_singleton. split; [congruence|done].
  - simpl. rewrite list_elem_of_singleton. split; [by left|done].
  - intros tok Htok. cbn [fields_from]. rewrite ends_with_space_cons.
    destruct (is_space c) eqn:Hc.
    + rewrite elem_of_cons, IHin. case_decide as Hs.
      * split; [done|intros _; right; by left].
      * split; [intros [?|[?|?]]; congruence|intros ?; right; by right].
    + rewrite IHout by by destruct tok. case_decide as Hs; [|done].
      by subst.
  - cbn [fields_from]. rewrite ends_with_space_cons.
    destruct (is_space c) eqn:Hc.
    + rewrite IHin. case_decide as Hs.
      * split; [by right|by left].
      * split; [intros [?|?]; [done|by right]|intros [?|?]; [done|by right]].
    + rewrite IHout by done. case_decide as Hs.
      * subst. split; [done|intros [?|?]; done].
      * split; [by right|intros [?|?]; done].
Qed.

Lemma ToLower_ends_with_space (s : string) :
  ends_with_space (ToLower s) = ends_with_space s.
Proof.
  unfold ToLower. induction s as [|c s IH]; [done|].
  cbn [string_map]. rewrite !ends_with_space_cons, IH, lower_ascii_space.
  destruct s; done.
Qed.

(** X4: the empty string is among the tokens exactly when the text, once
    the characters other than letters and white space are removed, is
    empty, or begins with white space, or ends with white space. *)
Theorem parseText_empty_token_iff (text : string) :
  "" ∈ parseText text ↔
  removeNonAlphabetic text = ""
  ∨ starts_with_space (removeNonAlphabetic text) = true
  ∨ ends_with_space (removeNonAlphabetic text) = true.
Proof.
  rewrite parseText_fields. unfold fields.
  rewrite <- (ToLower_ends_with_space (removeNonAlphabetic text)).
  generalize (removeNonAlphabetic text). intros [|c s].
  - simpl. rewrite list_elem_of_singleton. split; [by left|done].
  - unfold ToLower. cbn [string_map fields_from starts_with_space].
    fold (ToLower s). rewrite lower_ascii_space.
    rewrite ends_with_space_cons.
    destruct (fields_from_empty_elem (ToLower s)) as [Hout Hin].
    destruct (is_space c) eqn:Hc.
    + rewrite elem_of_cons. split; [intros _; right; by left|intros _; by left].
    + rewrite Hout by done. rewrite ?lower_ascii_space, ?Hc.
      case_decide as Hs.
      * rewrite Hs. split; [done|intros [?|[?|?]]; done].
      * split; [intros ?; right; by right|intros [?|[?|?]]; done].
Qed.

Lemma string_filter_append (keep : ascii → bool) (a b : string) :
  string_filter keep (a ++ b)%string
  = (string_filter keep a ++ string_filter keep b)%string.
Proof.
  induction a as [|c a IH]; [done|].
  rewrite append_cons. simpl. destruct (keep c); [|done].
  by rewrite append_cons, IH.
Qed.

(** X5: a character that is neither a letter nor white space is dropped
    without a trace: it does not separate the letters on its two sides,
    and the tokens are those of the text without it. *)
Theorem parseText_ignores_punctuation (before after : string) (c : ascii) :
  is_alpha c = false → is_space c = false →
  parseText (before ++ String c after) = parseText (before ++ after).
Proof.
  intros Ha Hs. unfold parseText, removeNonAlphabetic.
  rewrite !string_filter_append. simpl. by rewrite Ha, Hs.
Qed.

Lemma parseText_ignores_punctuation_witness :
  parseText ("don" ++ String "'" "t stop") = parseText ("don" ++ "t stop").
Proof.
  apply (parseText_ignores_punctuation "don" "t stop" "'"); reflexivity.
Defined.

(** X6: the tokens do not depend on the case of the letters: a text and
    the same text with each capital letter A to Z replaced by its
    lower-case letter, every other byte as it is, give the same tokens. *)
Theorem parseText_ignores_case (text : string) :
  parseText (string_map lower_ascii text) = parseText text.
Proof.
  unfold parseText. f_equal. unfold ToLower, removeNonAlphabetic.
  induction text as [|c text IH]; [done|]. simpl.
  rewrite lower_ascii_alpha, lower_ascii_space.
  destruct (is_alpha c || is_space c); [|done].
  simpl. by rewrite lower_ascii_idemp, IH.
Qed.

Lemma fields_from_word (w s tok : string) (in_run : bool) :
  w ≠ "" → string_forall (λ c, negb (is_space c)) w = true →
  fields_from (w ++ s) tok in_run = fields_from s (tok ++ w) false.
Proof.
  revert tok in_run. induction w as [|c w IH]; intros tok in_run Hw Hns; [done|].
  simpl in Hns. apply andb_true_iff in Hns as [Hc Hns].
  rewrite append_cons. cbn [fields_from].
  destruct (is_space c); [done|].
  destruct (decide (w = "")) as [->|Hne]; [done|].
  rewrite IH by done. by rewrite string_app_assoc.
Qed.

Lemma fields_from_join (words : list string) (in_run : bool) :
  words ≠ [] →
  Forall (λ w, w ≠ "" ∧ string_forall (λ c, negb (is_space c)) w = true)
    words →
  fields_from (String.concat " " words) "" in_run = words.
Proof.
  intros Hne Hwords. revert in_run.
  induction Hwords as [|w words [Hw Hns] Hwords IH]; intros in_run; [done|].
  destruct words as [|w' words].
  - simpl. rewrite <- (string_app_nil_r w) at 1.
    by rewrite fields_from_word.
  - change (String.concat " " (w :: w' :: words))
      with (w ++ String " " (String.concat " " (w' :: words)))%string.
    rewrite fields_from_word by done. rewrite append_nil_l.
    cbn [fields_from]. change (is_space " ") with true. cbv iota.
    by rewrite IH.
Qed.

Lemma removeNonAlphabetic_fixed (s : string) :
  string_forall (λ c, is_alpha c || is_space c) s = true →
  removeNonAlphabetic s = s.
Proof.
  unfold removeNonAlphabetic.
  induction s as [|c s IH]; [done|]. simpl.
  intros [-> Hs]%andb_true_iff. by rewrite IH.
Qed.

Lemma ToLower_fixed (s : string) :
  string_forall (λ c, is_lower c || is_space c) s = true → ToLower s = s.
Proof.
  unfold ToLower. induction s as [|c s IH]; [done|]. simpl.
  intros [Hc Hs]%andb_true_iff. by rewrite IH, lower_ascii_fixed.
Qed.

Lemma string_forall_impl (p q : ascii → bool) (s : string) :
  (∀ c, p c = true → q c = true) →
  string_forall p s = true → string_forall q s = true.
Proof.
  intros Hpq. induction s as [|c s IH]; [done|]. simpl.
  intros [Hc Hs]%andb_true_iff. by rewrite (Hpq c Hc), IH.
Qed.

Lemma string_forall_join (p : ascii → bool) (words : list string) :
  p " "%char = true → Forall (λ w, string_forall p w = true) words →
  string_forall p (String.concat " " words) = true.
Proof.
  intros Hsp. induction 1 as [|w words Hw Hwords IH]; [done|].
  destruct words as [|w' words]; [done|].
  change (String.concat " " (w :: w' :: words))
    with (w ++ String " " (String.concat " " (w' :: words)))%string.
  rewrite string_forall_append, Hw.
  cbn [string_forall andb]. by rewrite Hsp, IH.
Qed.

(** X7: a round trip: the tokens of a text made of words of lower-case
    letters, joined by single spaces, are these words. *)
Theorem parseText_join (words : list string) :
  words ≠ [] →
  Forall (λ w, w ≠ "" ∧ string_forall is_lower w = true) words →
  parseText (String.concat " " words) = words.
Proof.
  intros Hne Hwords. rewrite parseText_fields.
  rewrite removeNonAlphabetic_fixed, ToLower_fixed.
  - apply fields_from_join; [done|].
    eapply Forall_impl; [done|]. intros w [? Hw]. split; [done|].
    eapply string_forall_impl; [|done].
    intros c Hc%lower_is_alpha%alpha_not_space. by rewrite Hc.
  - apply string_forall_join; [done|].
    eapply Forall_impl; [done|]. intros w [_ Hw].
    eapply string_forall_impl; [|done]. intros c ->. done.
  - apply string_forall_join; [done|].
    eapply Forall_impl; [done|]. intros w [_ Hw].
    eapply string_forall_impl; [|done].
    intros c ->%lower_is_alpha. done.
Qed.

Lemma parseText_join_witness :
  parseText (String.concat " " ["the"; "cat"; "sat"]) = ["the"; "cat"; "sat"].
Proof.
  apply parseText_join; [done|].
  repeat (constructor; [by split|]). constructor.
Defined.

(** ** [countWords]: keys, order of the words, concatenation *)

Lemma countWords_step_is_Some m word w :
  is_Some (countWords_step m word !! w) ↔ w = word ∨ is_Some (m !! w).
Proof.
  unfold countWords_step.
  destruct (m !! word) as [count|] eqn:Hword; rewrite lookup_insert;
    case_decide; subst; split; eauto; intros [->|?]; eauto; congruence.
Qed.

Lemma countWords_from_is_Some m words w :
  is_Some (countWords_from m words !! w) ↔ is_Some (m !! w) ∨ w ∈ words.
Proof.
  revert m. induction words as [|x words IH]; intros m.
  - simpl. split; [by left|]. by intros [?|?%elem_of_nil].
  - cbn [countWords_from foldl]. fold (countWords_from (countWords_step m x) words).
    rewrite IH, countWords_step_is_Some, elem_of_cons. tauto.
Qed.

(** X8: whatever the length of the list, the keys of the map are exactly
    the strings that occur in it: a string that does not occur is a
    missing key, and none that occurs is left out. *)
Theorem countWords_keys (words : list string) (w : string) :
  is_Some (countWords words !! w) ↔ w ∈ words.
Proof.
  unfold countWords. rewrite countWords_from_is_Some, lookup_empty.
  split; [intros [[? ?]|?]; done|by right].
Qed.

Lemma occurrences_Permutation w words1 words2 :
  words1 ≡ₚ words2 → occurrences w words1 = occurrences w words2.
Proof. intros Hp. unfold occurrences. by rewrite Hp. Qed.

Lemma occurrences_app w words1 words2 :
  occurrences w (words1 ++ words2)
  = occurrences w words1 + occurrences w words2.
Proof. unfold occurrences. rewrite filter_app, length_app. lia. Qed.

(** X9: the map does not depend on the order of the words: two lists
    with the same words, each as many times, give the same map. *)
Theorem countWords_Permutation (words1 words2 : list string) :
  Z.of_nat (length words1) ≤ max_int →
  words1 ≡ₚ words2 → countWords words1 = countWords words2.
Proof.
  intros Hlen Hp. apply map_eq. intros w.
  rewrite !countWords_lookup by (by rewrite <- ?Hp).
  rewrite (occurrences_Permutation w _ _ Hp).
  destruct (decide (w ∈ words1)) as [Hin|Hnin].
  - rewrite decide_True; [done|by rewrite <- Hp].
  - rewrite decide_False; [done|by rewrite <- Hp].
Qed.

Lemma countWords_Permutation_witness :
  countWords ["the"; "cat"; "the"] = countWords ["cat"; "the"; "the"].
Proof.
  apply countWords_Permutation; [vm_compute; discriminate|].
  apply perm_swap.
Defined.

(** X10: counting composes: the map of two lists put together holds, for
    every string, the sum of its counts in the two maps, a string
    missing from one of them keeping its count in the other. *)
Theorem countWords_app (words1 words2 : list string) :
  Z.of_nat (length (words1 ++ words2)) ≤ max_int →
  countWords (words1 ++ words2)
  = union_with (λ count1 count2, Some (count1 + count2))
      (countWords words1) (countWords words2).
Proof.
  intros Hlen. rewrite length_app in Hlen. apply map_eq. intros w.
  rewrite lookup_union_with.
  rewrite !countWords_lookup by (rewrite ?length_app; lia).
  rewrite occurrences_app.
  destruct (decide (w ∈ words1)) as [H1|H1],
           (decide (w ∈ words2)) as [H2|H2]; simpl.
  - rewrite decide_True; [done|]. apply elem_of_app. by left.
  - rewrite decide_True by (apply elem_of_app; by left).
    f_equal. apply occurrences_pos in H1.
    pose proof (occurrences_nonneg w words2).
    assert (occurrences w words2 = 0); [|lia].
    destruct (Z.eq_dec (occurrences w words2) 0) as [|Hne]; [done|].
    exfalso. apply H2, occurrences_pos. lia.
  - rewrite decide_True by (apply elem_of_app; by right).
    f_equal. pose proof (occurrences_nonneg w words1).
    assert (occurrences w words1 = 0); [|lia].
    destruct (Z.eq_dec (occurrences w words1) 0) as [|Hne]; [done|].
    exfalso. apply H1, occurrences_pos. lia.
  - rewrite decide_False; [done|]. by intros [?|?]%elem_of_app.
Qed.

Lemma countWords_app_witness :
  countWords (["the"; "cat"] ++ ["the"; "mat"])
  = union_with (λ count1 count2, Some (count1 + count2))
      (countWords ["the"; "cat"]) (countWords ["the"; "mat"]).
Proof. apply countWords_app. vm_compute. discriminate. Defined.

(** ** [complete]: which tokens, in which order *)

Lemma NoDup_fst_filter {A B} (P : A * B → Prop) `{∀ x, Decision (P x)}
    (l : list (A * B)) :
  NoDup l.*1 → NoDup (filter P l).*1.
Proof.
  induction l as [|[a b] l IH]; [done|]. csimpl. rewrite NoDup_cons.
  intros [Ha Hl]. rewrite filter_cons. case_decide; [|by apply IH].
  csimpl. apply NoDup_cons. split; [|by apply IH].
  intros ([a' b'] & -> & [_ Hin]%list_elem_of_filter)%list_elem_of_fmap.
  apply Ha. apply list_elem_of_fmap. by exists (a', b').
Qed.

Lemma scan_of_NoDup (m : gmap string Z) (scan : list (string * Z)) :
  scan_of m scan → NoDup scan.*1.
Proof. unfold scan_of. intros ->. apply NoDup_fst_map_to_list. Qed.

(** X11: [complete] returns exactly the keys of the map that have the
    prefix, each of them once. *)
Theorem complete_exactly_matching_keys (m : gmap string Z)
    (prefix : string) (scan : list (string * Z)) :
  scan_of m scan →
  ∃ result,
    complete prefix scan = Some result
    ∧ NoDup result
    ∧ ∀ t, t ∈ result ↔ is_Some (m !! t) ∧ HasPrefix t prefix = true.
Proof.
  intros Hscan.
  destruct (complete_spec prefix scan) as (ws & -> & Hperm & _).
  eexists. split; [done|]. split.
  - rewrite Hperm, collect_filter, <- list_fmap_compose.
    apply (NoDup_fst_filter (λ e, HasPrefix e.1 prefix = true)).
    by apply (scan_of_NoDup m).
  - intros t. rewrite list_elem_of_fmap. split.
    + intros (x & -> & Hx). rewrite Hperm in Hx.
      apply (elem_of_collect_map m) in Hx as [Hm Hp]; [|done].
      split; [by eexists|done].
    + intros [[c Hc] Hp]. exists (mkWordCount t c). split; [done|].
      rewrite Hperm. by apply (elem_of_collect_map m).
Qed.

Lemma complete_exactly_matching_keys_witness :
  ∃ result,
    complete "ca" example_scan = Some result
    ∧ NoDup result
    ∧ ∀ t, t ∈ result ↔
           is_Some (example_index !! t) ∧ HasPrefix t "ca" = true.
Proof.
  apply (complete_exactly_matching_keys example_index "ca" example_scan).
  unfold scan_of, example_index. symmetry. apply map_to_list_to_map.
  apply (bool_decide_unpack _). vm_compute. reflexivity.
Defined.

Lemma complete_ties_in_reverse_scan_order_witness :
  stood_after tie_scan ("b", 1) ("a", 1).
Proof.
  apply (complete_ties_in_reverse_scan_order tie_index "" tie_scan
           ["b"; "a"] 0 1 "b" "a" 1).
  - unfold scan_of, tie_index. symmetry. apply map_to_list_to_map.
    apply (bool_decide_unpack _). vm_compute. reflexivity.
  - vm_compute. reflexivity.
  - lia.
  - reflexivity.
  - reflexivity.
  - vm_compute. reflexivity.
  - vm_compute. reflexivity.
Defined.

(** X13: two calls on the same map return the same tokens, and position
    by position tokens of the same count, whatever the orders in which
    the two scans visit the map: only tokens of equal count can change
    places. *)
Theorem complete_same_counts_any_scan (m : gmap string Z) (prefix : string)
    (scan1 scan2 : list (string * Z)) :
  scan_of m scan1 → scan_of m scan2 →
  ∃ result1 result2,
    complete prefix scan1 = Some result1
    ∧ complete prefix scan2 = Some result2
    ∧ result1 ≡ₚ result2
    ∧ (λ t, m !! t) <$> result1 = (λ t, m !! t) <$> result2.
Proof.
  intros Hscan1 Hscan2.
  destruct (complete_spec prefix scan1) as (ws1 & -> & Hperm1 & Hs1).
  destruct (complete_spec prefix scan2) as (ws2 & -> & Hperm2 & Hs2).
  assert (ws1 ≡ₚ ws2) as Hperm.
  { rewrite Hperm1, Hperm2. apply collect_Permutation.
    unfold scan_of in *. by rewrite Hscan1, Hscan2. }
  do 2 eexists. split; [done|]. split; [done|]. split; [by rewrite Hperm|].
  assert (∀ ws scan, scan_of m scan → ws ≡ₚ collect prefix scan →
            (λ t, m !! t) <$> (Word <$> ws) = Some <$> (Count <$> ws))
    as Hcounts.
  { intros ws scan Hscan Hws. rewrite <- !list_fmap_compose.
    apply list_fmap_ext. intros i x Hx%list_elem_of_lookup_2. simpl.
    rewrite Hws in Hx. by apply (elem_of_collect_map m) in Hx as [? _]. }
  rewrite (Hcounts ws1 scan1), (Hcounts ws2 scan2) by done. f_equal.
  apply (StronglySorted_unique_strong (λ c1 c2 : Z, c2 ≤ c1)).
  - intros. lia.
  - by apply (StronglySorted_fmap Count by_count_desc).
  - by apply (StronglySorted_fmap Count by_count_desc).
  - by rewrite Hperm.
Qed.

Lemma complete_same_counts_any_scan_witness :
  ∃ result1 result2,
    complete "" [("a", 1); ("b", 1)] = Some result1
    ∧ complete "" [("b", 1); ("a", 1)] = Some result2
    ∧ result1 ≡ₚ result2
    ∧ (λ t, tie_index !! t) <$> result1 = (λ t, tie_index !! t) <$> result2.
Proof.
  apply (complete_same_counts_any_scan tie_index).
  - unfold scan_of, tie_index. symmetry. apply map_to_list_to_map.
    apply (bool_decide_unpack _). vm_compute. reflexivity.
  - unfold scan_of, tie_index. transitivity tie_scan; [apply perm_swap|].
    symmetry. apply map_to_list_to_map.
    apply (bool_decide_unpack _). vm_compute. reflexivity.
Defined.

Lemma StronglySorted_filter {A} (R : relation A) (P : A → Prop)
    `{∀ x, Decision (P x)} (l : list A) :
  StronglySorted R l → StronglySorted R (filter P l).
Proof.
  induction 1 as [|x l Hl IH Hx]; [constructor|].
  rewrite filter_cons. case_decide; [|done]. constructor; [done|].
  rewrite Forall_forall in *. intros y [_ Hy]%list_elem_of_filter. by apply Hx.
Qed.

Lemma StronglySorted_mono {A} (R1 R2 : relation A) (l : list A) :
  (∀ x y, R1 x y → R2 x y) → StronglySorted R1 l → StronglySorted R2 l.
Proof.
  intros HR. induction 1 as [|x l Hl IH Hx]; constructor; [done|].
  eapply Forall_impl; [done|]. intros y. apply HR.
Qed.

Lemma filter_fmap {A B} (f : A → B) (P : B → Prop) `{∀ x, Decision (P x)}
    (l : list A) :
  filter P (f <$> l) = f <$> filter (λ a, P (f a)) l.
Proof.
  induction l as [|a l IH]; [done|]. csimpl. rewrite !filter_cons.
  case_decide; csimpl; by rewrite IH.
Qed.

Lemma HasPrefix_shorter (t p q : string) :
  HasPrefix t (p ++ q)%string = true → HasPrefix t p = true.
Proof.
  intros [rest ->]%HasPrefix_inv. rewrite string_app_assoc.
  apply HasPrefix_append.
Qed.

Lemma collect_longer_prefix (p q : string) (scan : list (string * Z)) :
  collect (p ++ q)%string scan
  = filter (λ x, HasPrefix (Word x) (p ++ q)%string = true) (collect p scan).
Proof.
  rewrite !collect_filter, filter_fmap. f_equal. simpl.
  by rewrite list_filter_filter_l by (intros x; apply HasPrefix_shorter).
Qed.

Lemma tie_order_irrefl (l : list WordCount) x y :
  NoDup l → tie_order l x y → tie_order l y x → False.
Proof.
  intros Hl [?|[? (i & j & Hij & Hi & Hj)]] [?|[? (i' & j' & Hij' & Hi' & Hj')]];
    [lia..|].
  assert (i = j') by by eapply NoDup_lookup.
  assert (j = i') by by eapply NoDup_lookup. lia.
Qed.

(** X14: typing on narrows the list without reordering it: the result
    for a prefix extended by more characters is the result for the
    prefix, in the same scan of the map, with the tokens that lack the
    longer prefix taken out. *)
Theorem complete_longer_prefix (m : gmap string Z) (p q : string)
    (scan : list (string * Z)) :
  scan_of m scan →
  complete (p ++ q)%string scan
  = filter (λ t, HasPrefix t (p ++ q)%string = true) <$> complete p scan.
Proof.
  intros Hscan%scan_of_NoDup.
  destruct (complete_tie_spec p scan Hscan) as (ws & -> & Hperm & Hs).
  destruct (complete_tie_spec (p ++ q)%string scan Hscan)
    as (ws' & -> & Hperm' & Hs').
  simpl. f_equal.
  rewrite (filter_fmap Word (λ t, HasPrefix t (p ++ q)%string = true)).
  f_equal.
  pose proof (NoDup_collect p scan Hscan) as Hnodup.
  apply (StronglySorted_unique_strong (tie_order (collect p scan))).
  - intros x y _ _ Hxy Hyx. by destruct (tie_order_irrefl _ _ _ Hnodup Hxy Hyx).
  - eapply StronglySorted_mono; [|done].
    intros x y [?|[? Hafter]]; [by left|right]. split; [done|].
    rewrite collect_longer_prefix in Hafter.
    by apply stood_after_filter in Hafter.
  - by apply StronglySorted_filter.
  - by rewrite Hperm', collect_longer_prefix, Hperm.
Qed.

Lemma complete_longer_prefix_witness :
  complete ("c" ++ "a")%string example_scan
  = filter (λ t, HasPrefix t ("c" ++ "a")%string = true)
      <$> complete "c" example_scan.
Proof.
  apply (complete_longer_prefix example_index).
  unfold scan_of, example_index. symmetry. apply map_to_list_to_map.
  apply (bool_decide_unpack _). vm_compute. reflexivity.
Defined.

(** ** [firstN] after [firstN] *)

(** X15: truncating twice is truncating once to the smaller bound; in
    particular [firstN] applied again with the same bound changes
    nothing. *)
Theorem firstN_firstN (words : list string) (n k : Z) :
  0 ≤ n → 0 ≤ k →
  ∃ top, firstN words n = Some top
       ∧ firstN top k = firstN words (Z.min n k)
       ∧ firstN top n = Some top.
Proof.
  intros Hn Hk. exists (take (Z.to_nat n) words).
  rewrite !firstN_nonneg by lia. split; [done|].
  rewrite !take_take. split; f_equal; f_equal; lia.
Qed.

Lemma firstN_firstN_witness :
  ∃ top, firstN ["the"; "cat"; "sat"; "on"] 3 = Some top
       ∧ firstN top 2 = firstN ["the"; "cat"; "sat"; "on"] (Z.min 3 2)
       ∧ firstN top 3 = Some top.
Proof. apply firstN_firstN; lia. Defined.

(** ** [respond]: panics, status codes, what is served *)

(** The handler on a request that passes the validation. *)
Lemma respond_valid (json_string : string → string)
    (scan : list (string * Z)) (r : Request) (url : URL) :
  RequestURI_parsed r = Some url →
  Method r = "GET" → Path url = "/autocomplete" → Query_term r ≠ "" →
  ∃ wordCounts,
    wordCounts ≡ₚ collect (Query_term r) scan
    ∧ respond json_string scan r
      = Some (mkResponse "application/json" StatusOK
                (matches_body
                   (json_Marshal json_string
                      (take 25 (Word <$> wordCounts))).1)).
Proof.
  intros Hurl Hm Hp Ht. unfold respond. rewrite Hurl.
  rewrite (proj2 (String.eqb_eq _ _) Hm), (proj2 (String.eqb_eq _ _) Hp).
  rewrite (proj2 (String.eqb_neq _ _) Ht). simpl.
  destruct (complete_spec (Query_term r) scan) as (ws & -> & Hperm & _).
  exists ws. split; [done|].
  rewrite (firstN_nonneg (Word <$> ws) 25) by lia.
  reflexivity.
Qed.

(** X16: the handler panics exactly on the requests whose request URI
    [url.Parse] rejects; on every other request, valid or not, it writes
    a response. *)
Theorem respond_panics_iff (json_string : string → string)
    (scan : list (string * Z)) (r : Request) :
  respond json_string scan r = None ↔ RequestURI_parsed r = None.
Proof.
  split; [|intros Hurl; unfold respond; by rewrite Hurl].
  destruct (RequestURI_parsed r) as [url|] eqn:Hurl; [|done].
  intros Hnone. exfalso.
  destruct (String.eqb_spec (Method r) "GET") as [Hm|Hm];
    [|unfold respond in Hnone; rewrite Hurl in Hnone;
      by rewrite (proj2 (String.eqb_neq _ _) Hm) in Hnone].
  destruct (String.eqb_spec (Path url) "/autocomplete") as [Hp|Hp];
    [|unfold respond in Hnone; rewrite Hurl in Hnone;
      rewrite (proj2 (String.eqb_neq _ _) Hp) in Hnone;
      by rewrite andb_false_r in Hnone].
  destruct (String.eqb_spec (Query_term r) "") as [Ht|Ht];
    [unfold respond in Hnone; rewrite Hurl in Hnone;
     rewrite (proj2 (String.eqb_eq _ _) Ht) in Hnone;
     by rewrite andb_false_r in Hnone|].
  destruct (respond_valid json_string scan r url Hurl Hm Hp Ht)
    as (ws & _ & Hresp).
  congruence.
Qed.

(** X17: whatever the request, a response that the handler writes has
    the content type [application/json] and the status 200 or 400. *)
Theorem respond_status (json_string : string → string)
    (scan : list (string * Z)) (r : Request) (response : Response) :
  respond json_string scan r = Some response →
  ContentType response = "application/json"
  ∧ (Status response = 200 ∨ Status response = 400).
Proof.
  unfold respond. destruct (RequestURI_parsed r) as [url|]; [|done].
  destruct (_ && _ && _); [|intros [= <-]; split; [done|by right]].
  destruct (complete _ _) as [matches|]; [|done].
  destruct (firstN _ _) as [top25|]; [|done].
  simpl. intros [= <-]. split; [done|by left].
Qed.

Lemma respond_status_witness :
  ContentType (mkResponse "application/json" StatusBadRequest
                 (message_body "Unsupported request")) = "application/json"
  ∧ (Status (mkResponse "application/json" StatusBadRequest
               (message_body "Unsupported request")) = 200
     ∨ Status (mkResponse "application/json" StatusBadRequest
                 (message_body "Unsupported request")) = 400).
Proof.
  apply (respond_status json_quote example_scan
           (mkRequest "POST" (Some (mkURL "/autocomplete")) "ca")).
  reflexivity.
Defined.

(** X18: the tokens of a response with status 200 are at most 25 keys of
    the index, no key twice; each starts with the term and none is the
    empty string, even when the index has the empty string as a key. *)
Theorem respond_serves_matching_keys (json_string : string → string)
    (m : gmap string Z) (scan : list (string * Z)) (r : Request) (url : URL) :
  scan_of m scan → RequestURI_parsed r = Some url →
  Method r = "GET" → Path url = "/autocomplete" → Query_term r ≠ "" →
  ∃ top25,
    respond json_string scan r
    = Some (mkResponse "application/json" StatusOK
              (matches_body (json_Marshal json_string top25).1))
    ∧ (length top25 ≤ 25)%nat ∧ NoDup top25
    ∧ ∀ t, t ∈ top25 →
           is_Some (m !! t) ∧ HasPrefix t (Query_term r) = true ∧ t ≠ "".
Proof.
  intros Hscan Hurl Hm Hp Ht.
  destruct (respond_valid json_string scan r url Hurl Hm Hp Ht)
    as (ws & Hperm & ->).
  eexists. split; [done|]. split; [|split].
  - rewrite length_take. lia.
  - apply (sublist_NoDup _ (Word <$> ws)); [|apply sublist_take].
    rewrite Hperm, collect_filter, <- list_fmap_compose.
    apply (NoDup_fst_filter (λ e, HasPrefix e.1 (Query_term r) = true)).
    by apply (scan_of_NoDup m).
  - intros t Ht25. rewrite <- fmap_take in Ht25.
    apply list_elem_of_fmap in Ht25 as (x & -> & Hx).
    apply (subseteq_take 25) in Hx.
    rewrite Hperm in Hx. apply (elem_of_collect_map m) in Hx as [Hx Hpre];
      [|done].
    split; [by eexists|]. split; [done|].
    intros Hempty. rewrite Hempty in Hpre.
    destruct (Query_term r); [done|]. done.
Qed.

Lemma respond_serves_matching_keys_witness :
  ∃ top25,
    respond json_quote example_scan
      (mkRequest "GET" (Some (mkURL "/autocomplete")) "ca")
    = Some (mkResponse "application/json" StatusOK
              (matches_body (json_Marshal json_quote top25).1))
    ∧ (length top25 ≤ 25)%nat ∧ NoDup top25
    ∧ ∀ t, t ∈ top25 →
           is_Some (example_index !! t) ∧ HasPrefix t "ca" = true ∧ t ≠ "".
Proof.
  apply (respond_serves_matching_keys json_quote example_index example_scan
           (mkRequest "GET" (Some (mkURL "/autocomplete")) "ca")
           (mkURL "/autocomplete")); try done.
  unfold scan_of, example_index. symmetry. apply map_to_list_to_map.
  apply (bool_decide_unpack _). vm_compute. reflexivity.
Defined.

(** ** [initCounts]: the index of the service *)

Lemma initCounts_inv (Args : list string) (ReadFile : string → option string)
    (countMap : gmap string Z) :
  initCounts Args ReadFile = Some countMap →
  ∃ filePath contents,
    Args !! 1%nat = Some filePath ∧ ReadFile filePath = Some contents
    ∧ countMap = countWords (parseText contents).
Proof.
  unfold initCounts, parseFile. destruct (_ <? _)%nat; [done|].
  destruct (Args !! 1%nat) as [filePath|]; [|done].
  destruct (ReadFile filePath) as [contents|] eqn:Hread; [|done].
  simpl. intros [= <-]. by exists filePath, contents.
Qed.

Lemma index_key_token (text w : string) :
  is_Some (countWords (parseText text) !! w) →
  w ∈ parseText text ∧ string_forall is_lower w = true.
Proof.
  unfold countWords. rewrite countWords_from_is_Some, lookup_empty.
  intros [[? ?]|Hw]; [done|]. split; [done|].
  rewrite parseText_fields in Hw.
  apply (fields_from_forall is_lower) in Hw; [done| |done].
  apply filtered_lowered_chars.
Qed.

Lemma fields_from_not_nil (s tok : string) (in_run : bool) :
  fields_from s tok in_run ≠ [].
Proof.
  revert tok in_run. induction s as [|c s IH]; intros tok in_run; [done|].
  cbn [fields_from]. destruct (is_space c); [|apply IH].
  destruct in_run; [apply IH|done].
Qed.

(** X19: when [initCounts] returns, the command line has a first
    argument and the file it names was read; the keys of the index are
    exactly the tokens of that file, each made of the letters a to z
    only, and the index is never empty: an empty file gives the one key
    [""]. *)
Theorem initCounts_index (Args : list string)
    (ReadFile : string → option string) (countMap : gmap string Z) :
  initCounts Args ReadFile = Some countMap →
  ∃ filePath contents,
    Args !! 1%nat = Some filePath ∧ ReadFile filePath = Some contents
    ∧ (∀ w, is_Some (countMap !! w) ↔ w ∈ parseText contents)
    ∧ (∀ w, is_Some (countMap !! w) → string_forall is_lower w = true)
    ∧ countMap ≠ ∅
    ∧ (contents = "" → countMap = {[ "" := 1 ]}).
Proof.
  intros (filePath & contents & HArgs & Hread & ->)%initCounts_inv.
  exists filePath, contents. split; [done|]. split; [done|].
  split.
  { intros w. split; [by intros [? _]%index_key_token|].
    intros Hw. unfold countWords. rewrite countWords_from_is_Some. by right. }
  split; [by intros w [_ ?]%index_key_token|].
  split; [|by intros ->].
  destruct (parseText contents) as [|token tokens] eqn:Htokens.
  - rewrite parseText_fields in Htokens. by apply fields_from_not_nil in Htokens.
  - intros Hempty.
    assert (is_Some (countWords (token :: tokens) !! token)) as [c Hc].
    { unfold countWords. rewrite countWords_from_is_Some. right. by left. }
    by rewrite Hempty, lookup_empty in Hc.
Qed.

Lemma initCounts_index_witness :
  ∃ filePath contents,
    example_Args !! 1%nat = Some filePath
    ∧ example_ReadFile filePath = Some contents
    ∧ (∀ w, is_Some (countWords (parseText "The cat. The mat!") !! w)
            ↔ w ∈ parseText contents)
    ∧ (∀ w, is_Some (countWords (parseText "The cat. The mat!") !! w)
            → string_forall is_lower w = true)
    ∧ countWords (parseText "The cat. The mat!") ≠ ∅
    ∧ (contents = "" →
       countWords (parseText "The cat. The mat!") = {[ "" := 1 ]}).
Proof.
  apply (initCounts_index example_Args example_ReadFile). reflexivity.
Defined.

(** X20: the service matches bytes, and its index holds lower-case
    letters only; so a valid request whose term has any other character,
    a capital letter for one, gets status 200 and no match, whatever the
    file. *)
Theorem respond_no_match_for_other_characters
    (json_string : string → string) (Args : list string)
    (ReadFile : string → option string) (countMap : gmap string Z)
    (scan : list (string * Z)) (r : Request) (url : URL) :
  initCounts Args ReadFile = Some countMap → scan_of countMap scan →
  RequestURI_parsed r = Some url →
  Method r = "GET" → Path url = "/autocomplete" →
  string_forall is_lower (Query_term r) = false →
  respond json_string scan r
  = Some (mkResponse "application/json" StatusOK (matches_body "[]")).
Proof.
  intros (filePath & contents & _ & _ & ->)%initCounts_inv Hscan Hurl Hm Hp Hterm.
  assert (Query_term r ≠ "") as Ht by (by intros Hempty; rewrite Hempty in Hterm).
  destruct (respond_valid json_string scan r url Hurl Hm Hp Ht)
    as (ws & Hperm & ->).
  destruct ws as [|x ws]; [done|]. exfalso.
  assert (x ∈ collect (Query_term r) scan) as Hx by (rewrite <- Hperm; by left).
  apply (elem_of_collect_map _ _ _ _ Hscan) in Hx as [Hkey Hpre].
  assert (string_forall is_lower (Word x) = true) as Htoken
    by (apply (index_key_token contents); by eexists).
  apply HasPrefix_inv in Hpre as [rest Hrest].
  rewrite Hrest, string_forall_append, Hterm in Htoken. done.
Qed.

Lemma respond_no_match_for_other_characters_witness :
  respond json_quote
    (map_to_list (countWords (parseText "The cat. The mat!")))
    (mkRequest "GET" (Some (mkURL "/autocomplete")) "Th")
  = Some (mkResponse "application/json" StatusOK (matches_body "[]")).
Proof.
  apply (respond_no_match_for_other_characters json_quote example_Args
           example_ReadFile (countWords (parseText "The cat. The mat!"))
           _ _ (mkURL "/autocomplete")); try reflexivity.
  unfold scan_of. reflexivity.
Defined.
